(** * tenkExtraction: section segmentation of 10-K filings

    A shallow embedding of [tenkExtraction.py] and the properties of its
    label normaliser, section classifier, canonical ordering, anchor
    discovery, boundary resolver, content extractor, quality gate and
    pattern fallback.

    Conventions of the embedding:
    - a Python [str] is the list of its Unicode code points ([list N]);
    - a Python [int] that is never negative (lengths, offsets, item
      numbers) is an [N];
    - a [dict] from section keys to text is a [gmap]; where the code
      relies on the insertion order of a dict (SECTION_MAPPINGS,
      section_mapping) it is an association list;
    - [None] is [None] of an [option];
    - [print] is output only and is left out. *)

From Stdlib Require Import NArith List String Ascii Lia Bool.
From stdpp Require Import gmap list.

Local Open Scope N_scope.

(** ** Python strings *)

Abbreviation str := (list N).

(** A literal of the source, as code points. *)
Definition lit (s : string) : str :=
  List.map N_of_ascii (list_ascii_of_string s).

(** [len(x)] *)
Definition len {A} (l : list A) : N := N.of_nat (length l).

(** Truth value of a string: [if s:] holds for every string but the
    empty one. *)
Definition truthy (s : str) : bool :=
  match s with [] => false | _ => true end.

(** [str.isspace] of one code point, which is also the class [\s] of
    [re] on [str] patterns: the ASCII controls 9-13 and 28-31, the
    space, NEL, NBSP and the Unicode space separators. *)
Definition isspace (c : N) : bool :=
  ((9 <=? c) && (c <=? 13)) || ((28 <=? c) && (c <=? 32))
  || (c =? 133) || (c =? 160) || (c =? 5760)
  || ((8192 <=? c) && (c <=? 8202))
  || (c =? 8232) || (c =? 8233) || (c =? 8239) || (c =? 8287)
  || (c =? 12288).

(** [s.split()]: the maximal runs of non-whitespace code points.
    [cur] is the run being read, reversed. *)
Fixpoint split_aux (cur s : list N) : list (list N) :=
  match s with
  | [] => match cur with [] => [] | _ => [rev cur] end
  | c :: r =>
      if isspace c
      then match cur with
           | [] => split_aux [] r
           | _ => rev cur :: split_aux [] r
           end
      else split_aux (c :: cur) r
  end.

Definition split (s : list N) : list (list N) := split_aux [] s.

(** [len(content.split())] *)
Definition word_count (content : list N) : N := len (split content).

(** ** The target sections *)

Definition TARGET_SECTIONS : list (list N) :=
  [lit "item_1"; lit "item_1a"; lit "item_1b"; lit "item_1c";
   lit "item_7"; lit "item_7a"].

(** ** Extraction quality gate *)

(** [section in extracted and extracted[section]] *)
Definition has_content (extracted : gmap (list N) (list N))
    (section : list N) : bool :=
  match extracted !! section with
  | Some content => truthy content
  | None => false
  end.

(** [len([section for section in TARGET_SECTIONS
          if section in extracted and extracted[section]])] *)
Definition found_count (extracted : gmap (list N) (list N)) : N :=
  len (List.filter (has_content extracted) TARGET_SECTIONS).

(** [content and len(content.split()) > 30000] *)
Definition too_long (content : list N) : bool :=
  truthy content && (30000 <? word_count content).

(** [should_use_xbrl_fallback(extracted, target_found)].  The loop over
    [extracted.items()] returns [True] at the first section that is too
    long, so its result is that of [existsb]; the order of the items
    has no part in it. *)
Definition should_use_xbrl_fallback (extracted : gmap (list N) (list N))
    (target_found : list (list N)) : bool :=
  if bool_decide (extracted = ∅) then true
  else if found_count extracted <=? len TARGET_SECTIONS / 2 then true
  else if existsb (λ item, too_long item.2) (map_to_list extracted) then true
  else false.


(** ** Decimal digits

    [\d] of [re] on [str] patterns and [int()] both read the Unicode
    decimal digits (general category Nd).  Every run of decimal digits
    is ten consecutive code points with values 0 to 9; the table lists
    the zero of each run (Unicode 14.0). *)
Definition DECIMAL_ZEROS : list N :=
  [48; 1632; 1776; 1984; 2406; 2534; 2662; 2790; 2918; 3046; 3174; 3302;
   3430; 3558; 3664; 3792; 3872; 4160; 4240; 6112; 6160; 6470; 6608; 6784;
   6800; 6992; 7088; 7232; 7248; 42528; 43216; 43264; 43472; 43504; 43600;
   44016; 65296; 66720; 68912; 69734; 69872; 69942; 70096; 70384; 70736;
   70864; 71248; 71360; 71472; 71904; 72016; 72784; 73040; 73120; 92768;
   92864; 93008; 120782; 120792; 120802; 120812; 120822; 123200; 123632;
   125264; 130032].

(** The value of a decimal digit, [None] for any other code point. *)
Definition decimal (c : N) : option N :=
  match List.find (λ z, (z <=? c) && (c <? z + 10)) DECIMAL_ZEROS with
  | Some z => Some (c - z)
  | None => None
  end.

(** [\d] *)
Definition isdecimal (c : N) : bool :=
  match decimal c with Some _ => true | None => false end.

(** [[a-z]] *)
Definition is_a_z (c : N) : bool := (97 <=? c) && (c <=? 122).

(** [int(s)] for a string of decimal digits: the value the call returns.
    That the call raises on a string of more than 4300 digits is in
    [int_checked] below. *)
Definition int (s : str) : N :=
  fold_left (λ acc c, 10 * acc + default 0 (decimal c)) s 0.

(** [str(n)]: the decimal digits of [n].  A number has no more decimal
    digits than binary ones, so [N.size_nat n] steps are enough. *)
Fixpoint digits_of (fuel : nat) (n : N) (acc : str) : str :=
  let acc' := (48 + n mod 10) :: acc in
  match fuel with
  | O => acc'
  | S fuel' => if n / 10 =? 0 then acc' else digits_of fuel' (n / 10) acc'
  end.

Definition str_of_int (n : N) : str := digits_of (N.size_nat n) n [].

(** ** String primitives *)

(** [s.startswith(p)], with the rest of [s] when it holds. *)
Fixpoint strip_prefix (p s : str) : option str :=
  match p, s with
  | [], _ => Some s
  | _ :: _, [] => None
  | a :: p', b :: s' => if a =? b then strip_prefix p' s' else None
  end.

Definition startswith (s p : str) : bool :=
  match strip_prefix p s with Some _ => true | None => false end.

(** [sub in s] *)
Fixpoint contains (sub s : str) : bool :=
  startswith s sub ||
  match s with
  | [] => false
  | _ :: r => contains sub r
  end.

(** The longest prefix of [s] in the class [f], and what follows it. *)
Fixpoint span (f : N → bool) (s : str) : str * str :=
  match s with
  | [] => ([], [])
  | c :: r =>
      if f c then let '(a, b) := span f r in (c :: a, b) else ([], s)
  end.

Fixpoint lstrip_class (f : N → bool) (s : str) : str :=
  match s with
  | [] => []
  | c :: r => if f c then lstrip_class f r else s
  end.

Definition strip_class (f : N → bool) (s : str) : str :=
  rev (lstrip_class f (rev (lstrip_class f s))).

(** [s.strip()] *)
Definition strip (s : str) : str := strip_class isspace s.

(** [s.strip("#")] *)
Definition strip_hash (s : str) : str := strip_class (N.eqb 35) s.

(** [s[a:b]] for offsets [0 <= a], [0 <= b]. *)
Definition slice (s : str) (a b : N) : str :=
  take (N.to_nat (b - a)) (drop (N.to_nat a) s).

(** [sep.join(parts)] *)
Fixpoint join (sep : str) (parts : list str) : str :=
  match parts with
  | [] => []
  | [p] => p
  | p :: rest => p ++ sep ++ join sep rest
  end.

(** Comparison of strings, [a < b]: by code points, a proper prefix first. *)
Fixpoint str_ltb (a b : str) : bool :=
  match a, b with
  | _, [] => false
  | [], _ :: _ => true
  | x :: a', y :: b' => (x <? y) || ((x =? y) && str_ltb a' b')
  end.

(** Comparison of [(int, str)] tuples, [a < b]. *)
Definition tuple_ltb (a b : N * str) : bool :=
  (a.1 <? b.1) || ((a.1 =? b.1) && str_ltb a.2 b.2).

(** [list.sort(key=...)] and [sorted]: a stable sort by [<] of the keys.
    Written as an insertion sort; an element is put before the first one
    whose key is not below its own, so equal keys keep their order. *)
Fixpoint insert_by {A} (key : A → N * str) (x : A) (l : list A) : list A :=
  match l with
  | [] => [x]
  | y :: r =>
      if tuple_ltb (key y) (key x) then y :: insert_by key x r
      else x :: y :: r
  end.

Definition sort_by {A} (key : A → N * str) (l : list A) : list A :=
  foldr (insert_by key) [] l.

(** ** Canonical ordering *)

(** The groups of [(\d+)([a-z]?)] matched at the start of [s]. *)
Definition match_num_letter (s : str) : option (str * str) :=
  let '(num, r) := span isdecimal s in
  match num with
  | [] => None
  | _ =>
      match r with
      | c :: _ => if is_a_z c then Some (num, [c]) else Some (num, [])
      | [] => Some (num, [])
      end
  end.

(** [re.match(r'item_(\d+)([a-z]?)', item_name)]: groups 1 and 2. *)
Definition re_match_item_key (item_name : str) : option (str * str) :=
  match strip_prefix (lit "item_") item_name with
  | Some r => match_num_letter r
  | None => None
  end.

Definition get_item_sort_key (item_name : str) : N * str :=
  match re_match_item_key item_name with
  | Some (num, letter) => (int num, letter)
  | None => (999, [])
  end.

(** ** Boundary resolver *)

Definition find_next_available_section (all_sections : list (str * str))
    (current_section : str) : option str :=
  let current_sort_key := get_item_sort_key current_section in
  let next_sections :=
    List.filter
      (λ x, tuple_ltb current_sort_key x.2)
      (List.map (λ s, (s.1, s.2, get_item_sort_key s.1)) all_sections) in
  match sort_by (λ x, x.2) next_sections with
  | first :: _ => Some first.1.2
  | [] => None
  end.

(** ** Calls that raise

    [int()] raises [ValueError] on a string of more than 4300 digits
    (the default of [sys.int_max_str_digits]; leading zeros count), and
    none of its callers catches it.  [int], [get_item_sort_key] and
    [find_next_available_section] above give the value a call returns;
    the definitions below follow the same code and tell also whether
    the call returns. *)
Inductive outcome (A : Type) : Type :=
  | Returns (a : A)
  | ValueError.

Arguments Returns {A}.
Arguments ValueError {A}.

#[global] Instance outcome_ret : MRet outcome := λ A, Returns.

#[global] Instance outcome_bind : MBind outcome :=
  λ A B f m, match m with Returns a => f a | ValueError => ValueError end.

Definition int_max_str_digits : N := 4300.

(** [int(s)] for a string of decimal digits. *)
Definition int_checked (s : str) : outcome N :=
  if int_max_str_digits <? len s then ValueError else Returns (int s).

Definition get_item_sort_key_checked (item_name : str) : outcome (N * str) :=
  match re_match_item_key item_name with
  | Some (num, letter) => num ← int_checked num; mret (num, letter)
  | None => mret (999, [])
  end.

Definition find_next_available_section_checked
    (all_sections : list (str * str)) (current_section : str)
    : outcome (option str) :=
  current_sort_key ← get_item_sort_key_checked current_section;
  keyed ←
    mapM (λ s : str * str,
            section_sort_key ← get_item_sort_key_checked s.1;
            mret (s.1, s.2, section_sort_key))
      all_sections;
  let next_sections :=
    List.filter (λ x, tuple_ltb current_sort_key x.2) keyed in
  mret (match sort_by (λ x, x.2) next_sections with
        | first :: _ => Some first.1.2
        | [] => None
        end).

(** ** The Unicode character database

    [unicodedata.normalize], [str.lower] and the class [\w] read tables
    of the Unicode character database that are no part of the
    repository.  They are taken as a parameter; the algorithms that run
    over them (canonical ordering, the final-sigma rule of [str.lower])
    are written out. *)
Record UCD := {
  (** full compatibility decomposition of one code point (itself when
      it has none) *)
  decomposition : N → str;
  (** canonical combining class, [unicodedata.combining] *)
  combining : N → N;
  (** full lowercase mapping of one code point *)
  tolower_full : N → str;
  (** the properties Cased and Case_Ignorable *)
  is_cased : N → bool;
  is_case_ignorable : N → bool;
  (** [str.isalnum] of one code point *)
  isalnum : N → bool
}.

Section Unicode.
Variable U : UCD.

(** Canonical ordering: a code point of combining class [k > 0] moves
    behind the code points that follow it with a class between 0 and
    [k], both excluded. *)
Fixpoint reorder_insert (c : N) (s : str) : str :=
  match s with
  | [] => [c]
  | d :: r =>
      if (0 <? combining U d) && (combining U d <? combining U c)
      then d :: reorder_insert c r
      else c :: d :: r
  end.

Definition canonical_order (s : str) : str := foldr reorder_insert [] s.

(** [unicodedata.normalize('NFKD', s)] *)
Definition nfkd (s : str) : str :=
  canonical_order (flat_map (decomposition U) s).

(** The capital sigma at the end of a word: before it, a cased letter
    after any case-ignorable code points; behind it, no cased letter
    after any case-ignorable code points.  [before] is the text read so
    far, last code point first. *)
Definition final_sigma (before after : str) : bool :=
  match lstrip_class (is_case_ignorable U) before with
  | c :: _ =>
      is_cased U c &&
      match lstrip_class (is_case_ignorable U) after with
      | d :: _ => negb (is_cased U d)
      | [] => true
      end
  | [] => false
  end.

Fixpoint lower_from (before s : str) : str :=
  match s with
  | [] => []
  | c :: r =>
      (if c =? 931
       then [if final_sigma before r then 962 else 963]
       else tolower_full U c) ++ lower_from (c :: before) r
  end.

(** [s.lower()] *)
Definition lower (s : str) : str := lower_from [] s.

(** [\w]: alphanumeric or the underscore. *)
Definition is_word (c : N) : bool := isalnum U c || (c =? 95).

(** [s.replace('\xa0', ' ')] *)
Definition replace_nbsp (s : str) : str :=
  List.map (λ c, if c =? 160 then 32 else c) s.

(** [re.sub(r'[^\w\s]', '', s)] *)
Definition remove_punctuation (s : str) : str :=
  List.filter (λ c, is_word c || isspace c) s.

(** [re.sub(r'\s+', ' ', s)]: one space for each maximal run of
    whitespace.  [in_run] says that the code point before was
    whitespace. *)
Fixpoint collapse_from (in_run : bool) (s : str) : str :=
  match s with
  | [] => []
  | c :: r =>
      if isspace c
      then if in_run then collapse_from true r else 32 :: collapse_from true r
      else c :: collapse_from false r
  end.

Definition collapse_whitespace (s : str) : str := collapse_from false s.

Definition normalize_anchor_text (text : str) : str :=
  let text := nfkd text in
  let text := replace_nbsp text in
  let text := remove_punctuation (lower text) in
  let text := strip (collapse_whitespace text) in
  text.

(** *** Section classifier *)

(** [item\s*(\d+)([a-z]?)] matched at the start of [s].  [\s*] takes
    all the whitespace there is: a digit is no whitespace, so giving
    some of it back cannot make [\d+] match. *)
Definition match_item_at (s : str) : option (str * str) :=
  match strip_prefix (lit "item") s with
  | Some r => match_num_letter (lstrip_class isspace r)
  | None => None
  end.

(** [re.search(r'item\s*(\d+)([a-z]?)', s)]: groups 1 and 2 of the
    leftmost match. *)
Fixpoint re_search_item (s : str) : option (str * str) :=
  match match_item_at s with
  | Some groups => Some groups
  | None =>
      match s with
      | [] => None
      | _ :: r => re_search_item r
      end
  end.

(** [no_spaces] of the source is never read and is left out. *)
Definition is_target_item_explicit (text : str) : bool * str :=
  let normalized := normalize_anchor_text text in
  match re_search_item normalized with
  | Some (item_num, item_letter) =>
      (true, lit "item_" ++ item_num ++ item_letter)
  | None => (false, [])
  end.

End Unicode.

(** The synonym table, in the order of the source. *)
Definition SECTION_MAPPINGS : list (str * list str) :=
  [(lit "item_1",
    [lit "business"; lit "our business"; lit "the business"; lit "overview";
     lit "company overview"; lit "general";
     lit "general development of business"; lit "description of business"]);
   (lit "item_1a",
    [lit "risk factors"; lit "risks"; lit "principal risks"; lit "key risks"]);
   (lit "item_1b",
    [lit "unresolved staff comments"; lit "unresolved sec staff comments"]);
   (lit "item_1c",
    [lit "cybersecurity"; lit "cyber security"; lit "information security";
     lit "security risks"; lit "cybersecurity risk management";
     lit "cybersecurity governance"; lit "cybersecurity threats"]);
   (lit "item_2", [lit "properties"; lit "real estate"; lit "facilities"]);
   (lit "item_3",
    [lit "legal proceedings"; lit "litigation"; lit "legal matters"]);
   (lit "item_4", [lit "mine safety disclosures"; lit "mine safety"]);
   (lit "item_5",
    [lit "market for registrant"; lit "market for common equity";
     lit "stockholder matters"]);
   (lit "item_6",
    [lit "selected financial data";
     lit "selected consolidated financial data"]);
   (lit "item_7",
    [lit "management's discussion and analysis"; lit "md&a"; lit "mda";
     lit "management discussion and analysis";
     lit "financial condition and results"; lit "management's discussion";
     lit "results of operations"]);
   (lit "item_7a",
    [lit "quantitative and qualitative disclosures about market risk";
     lit "market risk"; lit "quantitative disclosures";
     lit "market risk disclosures"]);
   (lit "item_8",
    [lit "financial statements"; lit "consolidated financial statements";
     lit "financial statements and supplementary data"]);
   (lit "item_9",
    [lit "changes in and disagreements";
     lit "accounting and financial disclosure"]);
   (lit "item_9a",
    [lit "controls and procedures";
     lit "disclosure controls and procedures"]);
   (lit "item_9b", [lit "other information"])].

(** The first key, in table order, one of whose phrases occurs in the
    normalized text. *)
Definition is_target_item_semantic (U : UCD) (text : str) : bool * str :=
  let normalized := normalize_anchor_text U text in
  match
    List.find
      (λ entry, existsb (λ variation, contains variation normalized) entry.2)
      SECTION_MAPPINGS
  with
  | Some (item_key, _) => (true, item_key)
  | None => (false, [])
  end.

(** A fragment of the database, used to run the definitions: Basic
    Latin, the no-break space, E with acute in both cases together
    with the combining acute accent, and the Greek sigmas.  Every other
    code point is given no decomposition, class 0, itself as lowercase
    and no property. *)
Definition is_ascii_upper (c : N) : bool := (65 <=? c) && (c <=? 90).

Definition is_ascii_alnum (c : N) : bool :=
  ((48 <=? c) && (c <=? 57)) || is_ascii_upper c || is_a_z c.

Definition ucd_fragment : UCD := {|
  decomposition c :=
    if c =? 160 then [32]
    else if c =? 201 then [69; 769]
    else if c =? 233 then [101; 769]
    else [c];
  combining c := if c =? 769 then 230 else 0;
  tolower_full c :=
    if is_ascii_upper c then [c + 32]
    else if c =? 201 then [233]
    else if c =? 931 then [963]
    else [c];
  is_cased c :=
    is_ascii_upper c || is_a_z c || (c =? 201) || (c =? 233)
    || (c =? 931) || (c =? 962) || (c =? 963);
  is_case_ignorable c :=
    (c =? 39) || (c =? 46) || (c =? 58) || (c =? 94) || (c =? 96)
    || (c =? 769);
  isalnum c :=
    is_ascii_alnum c || (c =? 201) || (c =? 233)
    || (c =? 931) || (c =? 962) || (c =? 963)
|}.

(** ** Anchor discovery *)

(** What discovery reads of the document: of each [<a href=...>] its
    [href] and its visible text [get_text(separator=" ", strip=True)],
    and of each header or block element its visible text and its [id]
    and [name] attributes, both lists in document order. *)
Record anchor := { a_href : str; a_text : str }.

Record element := {
  el_text : str;
  el_id : option str;
  el_name : option str
}.

Record document := {
  (** [soup.find_all("a", href=True)] *)
  doc_anchors : list anchor;
  (** [soup.find_all(['h1', 'h2', 'h3', 'h4', 'h5', 'h6', 'p', 'div',
      'span', 'td', 'th'])] *)
  doc_elements : list element
}.

(** Truth value of [element.get(attr)]: the attribute is there and is
    not empty. *)
Definition attr_truthy (a : option str) : bool :=
  match a with Some s => truthy s | None => false end.

(** [a or b] *)
Definition attr_or (a b : option str) : option str :=
  if attr_truthy a then a else b.

Section Discovery.
Variable U : UCD.

(** The state of the loops: the anchors recorded so far and the keys
    seen so far. *)
Definition catalog : Type := list (str * str) * gset str.

Definition record_anchor (st : catalog) (item_key target : str) : catalog :=
  (st.1 ++ [(item_key, target)], {[item_key]} ∪ st.2).

Definition unseen (st : catalog) (item_key : str) : bool :=
  negb (bool_decide (item_key ∈ st.2)).

(** One turn of the loop over the [<a href>] elements. *)
Definition anchor_step (st : catalog) (a : anchor) : catalog :=
  let href := strip (a_href a) in
  if negb (startswith href (lit "#")) then st
  else
    let label_raw := a_text a in
    if negb (truthy label_raw) then st
    else
      let '(is_explicit, item_key) := is_target_item_explicit U label_raw in
      if is_explicit && unseen st item_key
      then record_anchor st item_key (strip_hash href)
      else
        let '(is_semantic, item_key) := is_target_item_semantic U label_raw in
        if is_semantic && unseen st item_key
        then record_anchor st item_key (strip_hash href)
        else st.

Definition scan_anchors (anchors : list anchor) : list (str * str) :=
  (fold_left anchor_step anchors ([], ∅)).1.

(** The body shared by the two branches of the text search: the
    element gets the synthesized id when it has neither an [id] nor a
    [name]; otherwise its own [id], or else its [name], is the target.
    The assignment [element['id'] = element_id] changes the document,
    so the element is returned with the target. *)
Definition claim_element (found_sections : list (str * str))
    (item_key : str) (e : element) : element * str :=
  let element_id :=
    lit "section_" ++ item_key ++ lit "_" ++ str_of_int (len found_sections) in
  if negb (attr_truthy (el_id e)) && negb (attr_truthy (el_name e))
  then ({| el_text := el_text e; el_id := Some element_id;
           el_name := el_name e |}, element_id)
  else (e, default [] (attr_or (el_id e) (el_name e))).

(** One turn of the loop over the header and block elements; the third
    component collects the elements as the loop leaves them. *)
Definition text_search_step (st : catalog * list element) (e : element)
    : catalog * list element :=
  let '(cat, visited) := st in
  let text := el_text e in
  if negb (truthy text) || (200 <? len text) then (cat, visited ++ [e])
  else
    let '(is_explicit, item_key) := is_target_item_explicit U text in
    if is_explicit && unseen cat item_key
    then
      let '(e', target_id) := claim_element cat.1 item_key e in
      (record_anchor cat item_key target_id, visited ++ [e'])
    else
      let '(is_semantic, item_key) := is_target_item_semantic U text in
      if is_semantic && unseen cat item_key
      then
        let '(e', target_id) := claim_element cat.1 item_key e in
        (record_anchor cat item_key target_id, visited ++ [e'])
      else (cat, visited ++ [e]).

(** The found sections, and the elements after the search. *)
Definition extract_sections_by_text_search (soup : document)
    : list (str * str) * document :=
  let '(cat, visited) :=
    fold_left text_search_step (doc_elements soup) (([], ∅), []) in
  (cat.1, {| doc_anchors := doc_anchors soup; doc_elements := visited |}).

Definition extract_all_section_anchors (soup : document)
    : list (str * str) * document :=
  let all_sections := scan_anchors (doc_anchors soup) in
  let '(all_sections, soup) :=
    match all_sections with
    | [] => extract_sections_by_text_search soup
    | _ => (all_sections, soup)
    end in
  (sort_by (λ x, get_item_sort_key x.1) all_sections, soup).

Definition extract_target_anchors (soup : document)
    : list (str * str) * document :=
  let results := scan_anchors (doc_anchors soup) in
  match results with
  | [] => extract_sections_by_text_search soup
  | _ => (results, soup)
  end.

End Discovery.

(** ** Content extractor *)

(** What the extractor asks of the parsed tree.  The tree belongs to
    the parser library; its lookups and walks are taken as given. *)
Record Tree (node : Type) := {
  (** [soup.find(attrs={attr: value})] *)
  soup_find : str → str → option node;
  (** [soup.find_all(attrs={attr: True})] *)
  soup_find_all : str → list node;
  (** [soup.find("a", attrs={attr: value})] *)
  soup_find_a : str → str → option node;
  (** [soup.find_all("a", attrs={attr: True})] *)
  soup_find_all_a : str → list node;
  (** [el.get(attr)] *)
  node_get : node → str → option str;
  (** [el.name] *)
  node_name : node → str;
  (** [el.get_text(separator=' ', strip=True)] *)
  node_text : node → str;
  (** [el.get_text(strip=True)] *)
  node_text_joined : node → str;
  (** [el.parent] *)
  node_parent : node → option node;
  (** the tags reached by [find_next_sibling()] again and again *)
  next_siblings : node → list node;
  (** [==] of two tags *)
  node_eqb : node → node → bool
}.

Arguments soup_find {node}.
Arguments soup_find_all {node}.
Arguments soup_find_a {node}.
Arguments soup_find_all_a {node}.
Arguments node_get {node}.
Arguments node_name {node}.
Arguments node_text {node}.
Arguments node_text_joined {node}.
Arguments node_parent {node}.
Arguments next_siblings {node}.
Arguments node_eqb {node}.

Section ContentExtractor.
Variable U : UCD.
Context {node : Type}.
Variable soup : Tree node.

(** [a or b] on lookups: a tag is always true, [None] is not. *)
Definition or_else (a b : option node) : option node :=
  match a with Some _ => a | None => b end.

(** The loops [for el in candidates: if el.get(attr, "").lower() ==
    target_id.lower(): ... break]. *)
Definition find_ignoring_case (candidates : list node) (attr target_id : str)
    : option node :=
  List.find
    (λ el, bool_decide (lower U (default [] (node_get soup el attr))
                        = lower U target_id))
    candidates.

(** [current == next_el], false when there is no [next_el]. *)
Definition is_stop (next_el : option node) (current : node) : bool :=
  match next_el with
  | Some n => node_eqb soup current n
  | None => false
  end.

(** [if text and len(text) > 10: collected_text.append(text)] *)
Definition keep_text (min_len : N) (text : str) : list str :=
  if truthy text && (min_len <? len text) then [text] else [].

(** [while current and current != next_el: ...] over the siblings. *)
Fixpoint collect_until (next_el : option node) (siblings : list node)
    : list str :=
  match siblings with
  | [] => []
  | current :: rest =>
      if is_stop next_el current then []
      else keep_text 10 (node_text soup current)
           ++ collect_until next_el rest
  end.

(** The loop of the text-based method: it stops also at a sibling
    whose short text classifies as a section header. *)
Fixpoint collect_text_based (target_element : node)
    (next_target_element : option node) (siblings : list node) : list str :=
  match siblings with
  | [] => []
  | current :: rest =>
      if is_stop next_target_element current then []
      else
        let current_text := node_text soup current in
        if truthy current_text && (len current_text <? 200)
           && ((is_target_item_explicit U current_text).1
               || (is_target_item_semantic U current_text).1)
           && negb (node_eqb soup current target_element)
        then []
        else keep_text 10 current_text
             ++ collect_text_based target_element next_target_element rest
  end.

Definition find_section_content_text_based (target_element : node)
    (next_target_element : option node) : str :=
  let siblings :=
    match next_siblings soup target_element with
    | [] =>
        match node_parent soup target_element with
        | Some parent => next_siblings soup parent
        | None => []
        end
    | l => l
    end in
  strip (join [10; 10]
           (collect_text_based target_element next_target_element siblings)).

(** The three lookup strategies for the start of a section. *)
Definition find_target (target_id : str) : option node :=
  let by_id :=
    or_else (soup_find soup (lit "id") target_id)
      (find_ignoring_case (soup_find_all soup (lit "id")) (lit "id")
         target_id) in
  let by_a_name :=
    or_else by_id
      (or_else (soup_find_a soup (lit "name") target_id)
         (find_ignoring_case (soup_find_all_a soup (lit "name")) (lit "name")
            target_id)) in
  or_else by_a_name
    (or_else (soup_find soup (lit "name") target_id)
       (find_ignoring_case (soup_find_all soup (lit "name")) (lit "name")
          target_id)).

(** The lookups for the stop of a section. *)
Definition find_next (next_target_id : option str) : option node :=
  match next_target_id with
  | Some next_target_id =>
      if truthy next_target_id
      then
        or_else (soup_find soup (lit "id") next_target_id)
          (or_else (soup_find_a soup (lit "name") next_target_id)
             (or_else (soup_find soup (lit "name") next_target_id)
                (or_else
                   (find_ignoring_case (soup_find_all soup (lit "id"))
                      (lit "id") next_target_id)
                   (find_ignoring_case (soup_find_all soup (lit "name"))
                      (lit "name") next_target_id))))
      else None
  | None => None
  end.

Definition is_a (el : node) : bool :=
  bool_decide (node_name soup el = lit "a").

Definition find_section_content_advanced (target_id : str)
    (next_target_id : option str) : str :=
  match find_target target_id with
  | None => []
  | Some target_el =>
      let next_el := find_next next_target_id in
      if startswith target_id (lit "section_")
      then find_section_content_text_based target_el next_el
      else
        let start :=
          if is_a target_el
             && attr_truthy (node_get soup target_el (lit "name"))
          then
            if negb (truthy (node_text_joined soup target_el))
            then next_siblings soup target_el
            else target_el :: next_siblings soup target_el
          else next_siblings soup target_el in
        let collected_text := collect_until next_el start in
        let collected_text :=
          match collected_text, is_a target_el, node_parent soup target_el with
          | [], true, Some parent =>
              collect_until next_el (next_siblings soup parent)
          | _, _, _ => collected_text
          end in
        let collected_text :=
          match collected_text, is_a target_el with
          | [], false => keep_text 50 (node_text soup target_el)
          | _, _ => collected_text
          end in
        let collected_text :=
          match collected_text, node_parent soup target_el with
          | [], Some parent =>
              collect_until next_el (next_siblings soup parent)
          | _, _ => collected_text
          end in
        strip (join [10; 10] collected_text)
  end.

End ContentExtractor.

(** ** Pattern fallback extractor *)

(** The regular expressions of the fallback are run by the [re]
    library, case-insensitively; the library is taken as given. *)
Record Regex := {
  (** [(m.start(), m.end())] of each [m] of
      [re.finditer(pattern, text, re.IGNORECASE)] *)
  re_finditer : str → str → list (N * N);
  (** whether [re.search(pattern, text, re.IGNORECASE)] finds a match *)
  re_search : str → str → bool
}.

Record section_info := {
  xbrl_tag : str;
  title : str;
  patterns : list str
}.

(** [self.section_mapping], in the order of the source. *)
Definition section_mapping : list (str * section_info) :=
  [(lit "item_1",
    {| xbrl_tag := lit "us-gaap:BusinessDescription";
       title := lit "Business";
       patterns := [lit "item\s*1\b(?!\s*[a-c])"; lit "business\s*$";
                    lit "item\s*1\s*\.\s*business"] |});
   (lit "item_1a",
    {| xbrl_tag := lit "us-gaap:RiskFactors";
       title := lit "Risk Factors";
       patterns := [lit "item\s*1a\b"; lit "risk\s*factors";
                    lit "item\s*1\s*a\s*\.\s*risk"] |});
   (lit "item_1b",
    {| xbrl_tag := lit "us-gaap:UnresolvedStaffComments";
       title := lit "Unresolved Staff Comments";
       patterns := [lit "item\s*1b\b"; lit "unresolved\s*staff\s*comments";
                    lit "item\s*1\s*b\s*\.\s*unresolved"] |});
   (lit "item_1c",
    {| xbrl_tag := lit "us-gaap:Cybersecurity";
       title := lit "Cybersecurity";
       patterns := [lit "item\s*1c\b"; lit "cybersecurity";
                    lit "item\s*1\s*c\s*\.\s*cybersecurity"] |});
   (lit "item_7",
    {| xbrl_tag := lit "us-gaap:ManagementDiscussionAndAnalysis";
       title := lit "Management's Discussion and Analysis";
       patterns := [lit "item\s*7\b(?!\s*a)";
                    lit "management\'?s\s*discussion\s*and\s*analysis";
                    lit "md&a"; lit "item\s*7\s*\.\s*management"] |});
   (lit "item_7a",
    {| xbrl_tag :=
         lit "us-gaap:QuantitativeAndQualitativeDisclosuresAboutMarketRisk";
       title :=
         lit "Quantitative and Qualitative Disclosures About Market Risk";
       patterns := [lit "item\s*7a\b";
                    lit "quantitative\s*and\s*qualitative\s*disclosures";
                    lit "market\s*risk";
                    lit "item\s*7\s*a\s*\.\s*quantitative"] |})].

Definition header_indicators : list str :=
  [lit "item\s*\d+[a-c]?\s*\."; lit "^\s*item\s*\d+[a-c]?\s*";
   lit "part\s*[iv]+\s*item\s*\d+[a-c]?"].

Section PatternFallback.
Variable re : Regex.

(** [match_text] is not read by the source. *)
Definition _is_section_header (context match_text : str) : bool :=
  existsb (λ indicator, re_search re indicator context) header_indicators.

(** Truth value of [start_pos]: [None] and the offset 0 are false. *)
Definition pos_truthy (start_pos : option N) : bool :=
  match start_pos with
  | Some p => negb (p =? 0)
  | None => false
  end.

(** The loop over the matches of one pattern: [start_pos] becomes the
    start of the first match whose context of 100 characters on either
    side looks like a header, and stays as it was when there is none.
    [max(0, start - 100)] is the truncated subtraction of [N]. *)
Fixpoint scan_matches (all_text : str) (matches : list (N * N))
    (start_pos : option N) : option N :=
  match matches with
  | [] => start_pos
  | (m_start, m_end) :: rest =>
      let context_start := N.max 0 (m_start - 100) in
      let context_end := N.min (len all_text) (m_end + 100) in
      let context := slice all_text context_start context_end in
      if _is_section_header context (slice all_text m_start m_end)
      then Some m_start
      else scan_matches all_text rest start_pos
  end.

(** The loop over the patterns of one section; it is left when
    [start_pos] is true. *)
Fixpoint scan_patterns (all_text : str) (pats : list str)
    (start_pos : option N) : option N :=
  match pats with
  | [] => start_pos
  | pattern :: rest =>
      let start_pos :=
        scan_matches all_text (re_finditer re pattern all_text) start_pos in
      if pos_truthy start_pos then start_pos
      else scan_patterns all_text rest start_pos
  end.

(** The first loop of [find_section_boundaries]: the sections with a
    start, in the order they are put into [boundaries]. *)
Fixpoint section_starts (all_text : str)
    (mapping : list (str * section_info)) : list (str * N) :=
  match mapping with
  | [] => []
  | (section_id, section_info) :: rest =>
      let start_pos := scan_patterns all_text (patterns section_info) None in
      match start_pos with
      | Some p =>
          if pos_truthy start_pos
          then (section_id, p) :: section_starts all_text rest
          else section_starts all_text rest
      | None => section_starts all_text rest
      end
  end.

(** The second loop: each section ends where the next one, by start
    offset, begins, and the last one at the end of the text. *)
Fixpoint assign_ends (all_text : str) (section_positions : list (N * str))
    (boundaries : gmap str (N * N)) : gmap str (N * N) :=
  match section_positions with
  | [] => boundaries
  | (start_pos, section_id) :: rest =>
      let end_pos :=
        match rest with
        | (next_start, _) :: _ => next_start
        | [] => len all_text
        end in
      assign_ends all_text rest
        (<[section_id := (start_pos, end_pos)]> boundaries)
  end.

(** [all_text] is [soup.get_text()]. *)
Definition find_section_boundaries (all_text : str) : gmap str (N * N) :=
  let starts := section_starts all_text section_mapping in
  let section_positions :=
    sort_by (λ x, x) (List.map (λ b, (b.2, b.1)) starts) in
  assign_ends all_text section_positions ∅.

End PatternFallback.

(** ** The flow of [main] *)

Record extraction_result := {
  extraction_method : str;
  sections : gmap str str
}.

(** [main] from the anchors on.  [toc_targets] is
    [extract_target_anchors(soup)], [structural] is
    [extract_div_text_blocks(soup, toc_targets)] and [pattern] is
    [xbrl_parser.parse_10k_filing_xbrl(soup)]; [pattern] is read only
    when the gate rejects.  The result is what is written to the JSON
    file, without its time stamp and URL; [None] when nothing is
    written. *)
Definition main (toc_targets : list (str * str))
    (structural pattern : gmap str str) : option extraction_result :=
  let target_found :=
    List.map fst
      (List.filter (λ t, bool_decide (t.1 ∈ TARGET_SECTIONS)) toc_targets) in
  let extracted : gmap str str := ∅ in
  let extracted :=
    match toc_targets with
    | [] => extracted
    | _ => structural
    end in
  let extracted :=
    if should_use_xbrl_fallback extracted target_found
    then pattern
    else extracted in
  if bool_decide (extracted = ∅) then None
  else
    Some {| extraction_method :=
              if should_use_xbrl_fallback extracted target_found
              then lit "xbrl_fallback"
              else lit "toc_anchor";
            sections := extracted |}.

(** * Properties *)

(** ** Quality gate *)

Lemma truthy_false (s : str) : truthy s = false → s = [].
Proof. destruct s; [reflexivity | discriminate]. Qed.

Lemma too_long_spec (content : str) :
  too_long content = true ↔ 30000 < word_count content.
Proof.
  unfold too_long. rewrite andb_true_iff, N.ltb_lt. split.
  - intros [_ H]. exact H.
  - intros H. split; [| exact H].
    destruct content; [| reflexivity].
    vm_compute in H. discriminate.
Qed.

Lemma some_section_too_long (extracted : gmap str str) :
  existsb (λ item, too_long item.2) (map_to_list extracted) = true ↔
  ∃ section content,
    extracted !! section = Some content ∧ 30000 < word_count content.
Proof.
  rewrite existsb_exists. split.
  - intros [[section content] [Hin Hlong]].
    exists section, content. split.
    + apply elem_of_map_to_list, list_elem_of_In, Hin.
    + apply too_long_spec, Hlong.
  - intros (section & content & Hlook & Hlong).
    exists (section, content). split.
    + apply list_elem_of_In, elem_of_map_to_list, Hlook.
    + apply too_long_spec, Hlong.
Qed.

Lemma all_sections_short (extracted : gmap str str) :
  forallb (λ item, word_count item.2 <=? 30000) (map_to_list extracted)
  = true →
  ∀ section content,
    extracted !! section = Some content → word_count content ≤ 30000.
Proof.
  rewrite forallb_forall. intros Hall section content Hlook.
  apply N.leb_le.
  apply (Hall (section, content)), list_elem_of_In, elem_of_map_to_list, Hlook.
Qed.

Lemma half_of_targets : len TARGET_SECTIONS / 2 = 3.
Proof. reflexivity. Qed.

Lemma gate_unfold (extracted : gmap str str) (target_found : list str) :
  should_use_xbrl_fallback extracted target_found =
  bool_decide (extracted = ∅)
  || (found_count extracted <=? 3)
  || existsb (λ item, too_long item.2) (map_to_list extracted).
Proof.
  unfold should_use_xbrl_fallback. rewrite half_of_targets.
  destruct (bool_decide (extracted = ∅)); [reflexivity |].
  destruct (found_count extracted <=? 3); [reflexivity |].
  destruct (existsb _ _); reflexivity.
Qed.

(** C2.  The gate sends the run to the fallback exactly when the
    extracted mapping is empty, or at most 3 of the 6 target keys have
    content, or some section has more than 30,000 words; with 4 target
    sections with content and no section over 30,000 words it does
    not. *)
Theorem quality_gate_triggers_iff (extracted : gmap str str)
    (target_found : list str) :
  (should_use_xbrl_fallback extracted target_found = true ↔
     extracted = ∅
     ∨ found_count extracted ≤ 3
     ∨ ∃ section content,
         extracted !! section = Some content ∧ 30000 < word_count content)
  ∧ (found_count extracted = 4 →
     (∀ section content,
        extracted !! section = Some content → word_count content ≤ 30000) →
     should_use_xbrl_fallback extracted target_found = false).
Proof.
  assert (Hiff :
    should_use_xbrl_fallback extracted target_found = true ↔
      extracted = ∅
      ∨ found_count extracted ≤ 3
      ∨ ∃ section content,
          extracted !! section = Some content ∧ 30000 < word_count content).
  { rewrite gate_unfold, !orb_true_iff, bool_decide_eq_true, N.leb_le,
      some_section_too_long. tauto. }
  split; [exact Hiff |].
  intros Hfour Hshort.
  apply not_true_is_false. intros Htrue. apply Hiff in Htrue.
  destruct Htrue as [Hempty | [Hfew | (section & content & Hlook & Hlong)]].
  - subst extracted. vm_compute in Hfour. discriminate.
  - rewrite Hfour in Hfew. lia.
  - specialize (Hshort section content Hlook). lia.
Qed.

(** Four target sections with a few words each. *)
Definition four_sections : gmap str str :=
  <[lit "item_1" := lit "Our business is software."]>
  (<[lit "item_1a" := lit "Risks are many."]>
  (<[lit "item_7" := lit "Results of operations were good."]>
  (<[lit "item_7a" := lit "Market risk is low."]> ∅))).

Lemma quality_gate_triggers_iff_witness :
  should_use_xbrl_fallback four_sections [] = false.
Proof.
  apply (proj2 (quality_gate_triggers_iff four_sections [])).
  - reflexivity.
  - apply all_sections_short. reflexivity.
Defined.

(** C10.  The second input of the gate, the target keys found by
    discovery, has no part in its decision. *)
Theorem quality_gate_ignores_target_found (extracted : gmap str str)
    (tf1 tf2 : list str) :
  should_use_xbrl_fallback extracted tf1
  = should_use_xbrl_fallback extracted tf2.
Proof. reflexivity. Qed.

(** ** Labelling of the result *)

(** What the code does: the label is the gate's verdict on the
    sections that are written, not on the structural extraction. *)
Lemma main_label_is_gate_of_result (toc_targets : list (str * str))
    (structural pattern : gmap str str) (r : extraction_result) :
  main toc_targets structural pattern = Some r →
  extraction_method r =
    if should_use_xbrl_fallback (sections r) [] then lit "xbrl_fallback"
    else lit "toc_anchor".
Proof.
  unfold main. intros H.
  case_bool_decide; [discriminate |].
  injection H as <-. reflexivity.
Qed.

(** C1, at a document with no anchors whose flattened text yields
    four short target sections: the gate rejects the empty structural
    extraction, the pattern extraction replaces it, and the result is
    labelled [toc_anchor]. *)
Theorem main_labels_replaced_result_toc_anchor :
  should_use_xbrl_fallback ∅ [] = true
  ∧ main [] ∅ four_sections
    = Some {| extraction_method := lit "toc_anchor";
              sections := four_sections |}.
Proof. split; reflexivity. Qed.

(** ** Comparison of sort keys *)

Lemma str_ltb_cons (x y : N) (a b : str) :
  str_ltb (x :: a) (y :: b) = true ↔ x < y ∨ (x = y ∧ str_ltb a b = true).
Proof.
  simpl. rewrite orb_true_iff, andb_true_iff, N.ltb_lt, N.eqb_eq. tauto.
Qed.

Lemma str_ltb_irrefl (a : str) : str_ltb a a = false.
Proof.
  induction a as [| x a IH]; [reflexivity |].
  apply not_true_is_false. rewrite str_ltb_cons.
  intros [H | [_ H]]; [lia | congruence].
Qed.

Lemma str_ltb_trans (a b c : str) :
  str_ltb a b = true → str_ltb b c = true → str_ltb a c = true.
Proof.
  revert b c. induction a as [| x a IH]; intros [| y b] [| z c];
    try discriminate; try reflexivity.
  rewrite !str_ltb_cons. intros [H1 | [H1 H1']] [H2 | [H2 H2']].
  - left. lia.
  - left. lia.
  - left. lia.
  - right. split; [lia | eauto].
Qed.

Lemma str_ltb_total (a b : str) :
  str_ltb a b = true ∨ a = b ∨ str_ltb b a = true.
Proof.
  revert b. induction a as [| x a IH]; intros [| y b]; auto.
  rewrite !str_ltb_cons.
  destruct (N.lt_trichotomy x y) as [H | [H | H]]; [auto | | auto].
  subst y. destruct (IH b) as [H | [H | H]]; [auto | | auto].
  subst b. auto.
Qed.

Lemma tuple_ltb_spec (a b : N * str) :
  tuple_ltb a b = true ↔ a.1 < b.1 ∨ (a.1 = b.1 ∧ str_ltb a.2 b.2 = true).
Proof.
  unfold tuple_ltb.
  rewrite orb_true_iff, andb_true_iff, N.ltb_lt, N.eqb_eq. tauto.
Qed.

Lemma tuple_ltb_irrefl (a : N * str) : tuple_ltb a a = false.
Proof.
  apply not_true_is_false. rewrite tuple_ltb_spec.
  intros [H | [_ H]]; [lia |]. rewrite str_ltb_irrefl in H. discriminate.
Qed.

Lemma tuple_ltb_trans (a b c : N * str) :
  tuple_ltb a b = true → tuple_ltb b c = true → tuple_ltb a c = true.
Proof.
  rewrite !tuple_ltb_spec. intros [H1 | [H1 H1']] [H2 | [H2 H2']].
  - left. lia.
  - left. lia.
  - left. lia.
  - right. split; [lia | eauto using str_ltb_trans].
Qed.

Lemma tuple_ltb_total (a b : N * str) :
  tuple_ltb a b = true ∨ a = b ∨ tuple_ltb b a = true.
Proof.
  rewrite !tuple_ltb_spec. destruct a as [n l], b as [m k]. simpl.
  destruct (N.lt_trichotomy n m) as [H | [H | H]]; [auto | | auto].
  subst m. destruct (str_ltb_total l k) as [H | [H | H]]; [auto | | auto].
  subst k. auto.
Qed.

Lemma tuple_ltb_asym (a b : N * str) :
  tuple_ltb a b = true → tuple_ltb b a = false.
Proof.
  intros H. apply not_true_is_false. intros H'.
  pose proof (tuple_ltb_trans _ _ _ H H') as Hc.
  rewrite tuple_ltb_irrefl in Hc. discriminate.
Qed.

(** A key below another is below everything the other is not above. *)
Lemma tuple_ltb_le_trans (a b c : N * str) :
  tuple_ltb a b = true → tuple_ltb c b = false → tuple_ltb a c = true.
Proof.
  intros Hab Hcb.
  destruct (tuple_ltb_total b c) as [H | [H | H]].
  - eauto using tuple_ltb_trans.
  - subst c. exact Hab.
  - congruence.
Qed.

(** ** Sorting *)

(** The first of the elements with the least key. *)
Fixpoint first_min {A} (key : A → N * str) (l : list A) : option A :=
  match l with
  | [] => None
  | x :: r =>
      match first_min key r with
      | Some m => if tuple_ltb (key m) (key x) then Some m else Some x
      | None => Some x
      end
  end.

Lemma head_insert_by {A} (key : A → N * str) (x : A) (l : list A) :
  head (insert_by key x l) =
  match head l with
  | Some y => if tuple_ltb (key y) (key x) then Some y else Some x
  | None => Some x
  end.
Proof.
  destruct l as [| y r]; simpl; [| destruct (tuple_ltb _ _)]; reflexivity.
Qed.

Lemma head_sort_by {A} (key : A → N * str) (l : list A) :
  head (sort_by key l) = first_min key l.
Proof.
  induction l as [| x r IH]; [reflexivity |].
  change (sort_by key (x :: r)) with (insert_by key x (sort_by key r)).
  rewrite head_insert_by, IH. reflexivity.
Qed.

Lemma first_min_In {A} (key : A → N * str) (l : list A) (m : A) :
  first_min key l = Some m → In m l.
Proof.
  revert m. induction l as [| x r IH]; intros m; simpl; [discriminate |].
  destruct (first_min key r) as [m' |].
  - destruct (tuple_ltb _ _); intros [= <-]; auto.
  - intros [= <-]. auto.
Qed.


(** [first_min] finds the element that is below all before it and not
    above any behind it. *)
Lemma first_min_intro {A} (key : A → N * str) (before after : list A)
    (m : A) :
  (∀ x, In x before → tuple_ltb (key m) (key x) = true) →
  (∀ x, In x after → tuple_ltb (key x) (key m) = false) →
  first_min key (before ++ m :: after) = Some m.
Proof.
  intros Hbefore Hafter.
  induction before as [| b before IH]; simpl.
  - destruct (first_min key after) as [m' |] eqn:E; [| reflexivity].
    rewrite (Hafter m' (first_min_In _ _ _ E)). reflexivity.
  - rewrite IH by (intros; apply Hbefore; simpl; auto).
    rewrite Hbefore by (simpl; auto). reflexivity.
Qed.


(** ** Decimal digits and the other classes *)

Lemma decimal_Some_inv (c v : N) :
  decimal c = Some v →
  ∃ z, In z DECIMAL_ZEROS ∧ z ≤ c ∧ c < z + 10 ∧ v = c - z.
Proof.
  unfold decimal.
  destruct (List.find _ DECIMAL_ZEROS) as [z |] eqn:E; [| discriminate].
  intros [= <-]. apply find_some in E as [Hin Hz].
  apply andb_true_iff in Hz as [H1 H2].
  apply N.leb_le in H1. apply N.ltb_lt in H2. eauto.
Qed.

(** Splits a hypothesis [In z DECIMAL_ZEROS] into its 66 cases. *)
Ltac decimal_cases H :=
  unfold DECIMAL_ZEROS in H; simpl in H;
  repeat (destruct H as [H | H]; [subst |]); [.. | destruct H].

Lemma a_z_not_decimal (c : N) : is_a_z c = true → isdecimal c = false.
Proof.
  unfold is_a_z, isdecimal. rewrite andb_true_iff, N.leb_le, N.leb_le.
  intros [Hlo Hhi].
  destruct (decimal c) as [v |] eqn:E; [| reflexivity].
  apply decimal_Some_inv in E as (z & Hin & H1 & H2 & _).
  decimal_cases Hin; lia.
Qed.

Lemma space_not_decimal (c : N) : isspace c = true → isdecimal c = false.
Proof.
  unfold isdecimal. intros Hsp.
  destruct (decimal c) as [v |] eqn:E; [| reflexivity].
  apply decimal_Some_inv in E as (z & Hin & H1 & H2 & _).
  unfold isspace in Hsp.
  rewrite !orb_true_iff, !andb_true_iff, !N.leb_le, !N.eqb_eq in Hsp.
  decimal_cases Hin; lia.
Qed.

(** ** Parsing a section key *)

Lemma span_app (f : N → bool) (a b : str) :
  forallb f a = true →
  match b with c :: _ => f c = false | [] => True end →
  span f (a ++ b) = (a, b).
Proof.
  intros Ha Hb. induction a as [| x a IH]; simpl.
  - destruct b as [| c b]; [reflexivity |]. simpl. rewrite Hb. reflexivity.
  - simpl in Ha. apply andb_true_iff in Ha as [Hx Ha].
    rewrite Hx, (IH Ha). reflexivity.
Qed.

Lemma strip_prefix_Some (p s r : str) :
  strip_prefix p s = Some r → s = p ++ r.
Proof.
  revert s. induction p as [| a p IH]; intros [| b s]; simpl;
    try discriminate; try (intros [= <-]; reflexivity).
  destruct (N.eqb_spec a b) as [<- |]; [| discriminate].
  intros H. rewrite (IH s H). reflexivity.
Qed.

Lemma strip_prefix_app (p r : str) : strip_prefix p (p ++ r) = Some r.
Proof.
  induction p as [| a p IH]; simpl; [destruct r; reflexivity |].
  rewrite N.eqb_refl. exact IH.
Qed.

(** A letter, or nothing. *)
Definition optional_letter (letter : str) : Prop :=
  letter = [] ∨ ∃ c, letter = [c] ∧ is_a_z c = true.

(** The key [item_<number><optional letter>]. *)
Definition section_key (num letter : str) : str :=
  lit "item_" ++ num ++ letter.

(** A key of that form: digits, at least one, and at most one letter. *)
Definition well_formed (k : str) : Prop :=
  ∃ num letter,
    k = section_key num letter
    ∧ num ≠ [] ∧ forallb isdecimal num = true ∧ optional_letter letter.

Lemma match_num_letter_app (num letter rest : str) :
  num ≠ [] → forallb isdecimal num = true →
  match letter with
  | [] => match rest with c :: _ => isdecimal c = false ∧ is_a_z c = false
                        | [] => True end
  | [c] => is_a_z c = true
  | _ => False
  end →
  match_num_letter (num ++ letter ++ rest) = Some (num, letter).
Proof.
  intros Hne Hnum Hletter. unfold match_num_letter.
  rewrite span_app; [| exact Hnum |].
  - destruct num as [| d num]; [congruence |].
    destruct letter as [| c [| c' letter]]; simpl.
    + destruct rest as [| c rest]; [reflexivity |].
      destruct Hletter as [_ ->]. reflexivity.
    + rewrite Hletter. reflexivity.
    + destruct Hletter.
  - destruct letter as [| c [| c' letter]]; simpl.
    + destruct rest as [| c rest]; [exact I | apply Hletter].
    + apply a_z_not_decimal, Hletter.
    + destruct Hletter.
Qed.

Lemma get_item_sort_key_section_key (num letter : str) :
  num ≠ [] → forallb isdecimal num = true → optional_letter letter →
  get_item_sort_key (section_key num letter) = (int num, letter).
Proof.
  intros Hne Hnum Hletter.
  unfold get_item_sort_key, re_match_item_key, section_key.
  change (strip_prefix (lit "item_") (lit "item_" ++ num ++ letter))
    with (Some (num ++ letter)).
  rewrite <- (app_nil_r letter) at 1.
  rewrite match_num_letter_app; [reflexivity | exact Hne | exact Hnum |].
  destruct Hletter as [-> | (c & -> & Hc)]; [exact I | exact Hc].
Qed.

(** The parse fails on the keys that do not begin with [item_] and a
    decimal digit, and only on them. *)
Lemma re_match_item_key_None (m : str) :
  re_match_item_key m = None ↔
  ¬ ∃ d r, m = lit "item_" ++ d :: r ∧ isdecimal d = true.
Proof.
  unfold re_match_item_key. split.
  - intros H (d & r & -> & Hd).
    change (strip_prefix (lit "item_") (lit "item_" ++ d :: r))
      with (Some (d :: r)) in H.
    unfold match_num_letter in H. simpl in H. rewrite Hd in H.
    destruct (span isdecimal r) as [a b].
    destruct b as [| c b]; [discriminate |].
    destruct (is_a_z c); discriminate.
  - intros H.
    destruct (strip_prefix (lit "item_") m) as [r |] eqn:E; [| reflexivity].
    apply strip_prefix_Some in E as ->.
    unfold match_num_letter.
    destruct r as [| d r]; [reflexivity |]. simpl.
    destruct (isdecimal d) eqn:Hd; [| reflexivity].
    exfalso. apply H. eauto.
Qed.

(** The canonical order of two keys: [get_item_sort_key(k1) <
    get_item_sort_key(k2)]. *)
Definition sorts_before (k1 k2 : str) : bool :=
  tuple_ltb (get_item_sort_key k1) (get_item_sort_key k2).

Lemma sorts_before_section_keys (num letter num' letter' : str) :
  num ≠ [] → forallb isdecimal num = true → optional_letter letter →
  num' ≠ [] → forallb isdecimal num' = true → optional_letter letter' →
  sorts_before (section_key num letter) (section_key num' letter') = true ↔
  int num < int num' ∨ (int num = int num' ∧ str_ltb letter letter' = true).
Proof.
  intros. unfold sorts_before.
  rewrite !get_item_sort_key_section_key by assumption.
  apply tuple_ltb_spec.
Qed.

Lemma sentinel_after_small_numbers (k m : str) :
  well_formed k → (get_item_sort_key k).1 < 999 →
  re_match_item_key m = None →
  sorts_before k m = true.
Proof.
  intros _ Hsmall Hm. unfold sorts_before.
  unfold get_item_sort_key at 2. rewrite Hm.
  apply tuple_ltb_spec. left. exact Hsmall.
Qed.

(** C4, as the code has it.  The order of the sort keys is irreflexive
    and transitive, and two keys are ordered one way or the other
    unless they parse to the same (number, letter); it compares the
    number first and the letter second, no letter before any letter;
    item_1 < item_1a < item_1c < item_2 < item_7 < item_7a; and a key
    on which the parse fails sorts strictly after every well-formed
    key whose number is below 999. *)
Theorem canonical_order_properties :
  (∀ k, sorts_before k k = false)
  ∧ (∀ a b c,
       sorts_before a b = true → sorts_before b c = true →
       sorts_before a c = true)
  ∧ (∀ a b,
       sorts_before a b = true
       ∨ get_item_sort_key a = get_item_sort_key b
       ∨ sorts_before b a = true)
  ∧ (∀ num letter num' letter',
       num ≠ [] → forallb isdecimal num = true → optional_letter letter →
       num' ≠ [] → forallb isdecimal num' = true → optional_letter letter' →
       sorts_before (section_key num letter) (section_key num' letter') = true
       ↔ int num < int num'
         ∨ (int num = int num' ∧ str_ltb letter letter' = true))
  ∧ (∀ num c,
       num ≠ [] → forallb isdecimal num = true → is_a_z c = true →
       sorts_before (section_key num []) (section_key num [c]) = true)
  ∧ (sorts_before (lit "item_1") (lit "item_1a") = true
     ∧ sorts_before (lit "item_1a") (lit "item_1c") = true
     ∧ sorts_before (lit "item_1c") (lit "item_2") = true
     ∧ sorts_before (lit "item_2") (lit "item_7") = true
     ∧ sorts_before (lit "item_7") (lit "item_7a") = true)
  ∧ (∀ k m,
       well_formed k → (get_item_sort_key k).1 < 999 →
       re_match_item_key m = None →
       sorts_before k m = true).
Proof.
  split; [intros k; apply tuple_ltb_irrefl |].
  split; [intros a b c; apply tuple_ltb_trans |].
  split; [intros a b; apply tuple_ltb_total |].
  split; [exact sorts_before_section_keys |].
  split.
  { intros num c Hne Hnum Hc.
    apply sorts_before_section_keys; try assumption.
    - left. reflexivity.
    - right. eauto.
    - right. split; reflexivity. }
  split; [repeat split; reflexivity |].
  exact sentinel_after_small_numbers.
Qed.

Lemma canonical_order_properties_witness :
  sorts_before (lit "item_16") (lit "exhibits") = true.
Proof.
  apply (proj2 (proj2 (proj2 (proj2 (proj2 (proj2
           canonical_order_properties)))))).
  - exists (lit "16"), []. repeat split; [discriminate | left; reflexivity].
  - vm_compute. reflexivity.
  - reflexivity.
Defined.

(** C4 as stated fails in three places: the well-formed key item_1000
    does not sort before the malformed key [appendix]; the malformed
    key item_1xyz is parsed by its beginning and sorts before the
    well-formed item_7; and the well-formed keys item_1 and item_01 are
    different and neither sorts before the other. *)
Lemma canonical_order_counterexample :
  (well_formed (lit "item_1000") ∧ ¬ well_formed (lit "appendix")
   ∧ sorts_before (lit "item_1000") (lit "appendix") = false)
  ∧ (well_formed (lit "item_7") ∧ ¬ well_formed (lit "item_1xyz")
     ∧ sorts_before (lit "item_7") (lit "item_1xyz") = false)
  ∧ (well_formed (lit "item_1") ∧ well_formed (lit "item_01")
     ∧ lit "item_1" ≠ lit "item_01"
     ∧ sorts_before (lit "item_1") (lit "item_01") = false
     ∧ sorts_before (lit "item_01") (lit "item_1") = false).
Proof.
  assert (Hwf : ∀ num : string,
            lit num ≠ [] → forallb isdecimal (lit num) = true →
            well_formed (lit "item_" ++ lit num)).
  { intros num Hne Hnum. exists (lit num), [].
    unfold section_key. rewrite app_nil_r.
    repeat split; [exact Hne | exact Hnum | left; reflexivity]. }
  repeat split.
  - apply (Hwf "1000"%string); [discriminate | reflexivity].
  - intros (num & letter & H & _). discriminate H.
  - apply (Hwf "7"%string); [discriminate | reflexivity].
  - intros (num & letter & H & Hne & Hnum & Hletter).
    unfold section_key in H.
    change (lit "item_1xyz") with (lit "item_" ++ lit "1xyz") in H.
    apply app_inv_head in H.
    destruct num as [| d num]; [congruence |].
    injection H as <- H.
    destruct num as [| d num].
    + destruct Hletter as [-> | (c & -> & _)]; discriminate H.
    + injection H as <- H. discriminate Hnum.
  - apply (Hwf "1"%string); [discriminate | reflexivity].
  - apply (Hwf "01"%string); [discriminate | reflexivity].
  - discriminate.
Qed.

(** ** Boundary resolver *)

Lemma filter_map_commute {A B} (p : B → bool) (f : A → B) (l : list A) :
  List.filter p (List.map f l) = List.map f (List.filter (λ x, p (f x)) l).
Proof.
  induction l as [| x l IH]; simpl; [reflexivity |].
  destruct (p (f x)); simpl; rewrite IH; reflexivity.
Qed.

Lemma first_min_map {A B} (key : B → N * str) (f : A → B) (l : list A) :
  first_min key (List.map f l) = option_map f (first_min (λ x, key (f x)) l).
Proof.
  induction l as [| x l IH]; simpl; [reflexivity |].
  rewrite IH. destruct (first_min _ l) as [m |]; simpl; [| reflexivity].
  destruct (tuple_ltb _ _); reflexivity.
Qed.


Lemma filter_nil_iff {A} (p : A → bool) (l : list A) :
  List.filter p l = [] ↔ ∀ x, In x l → p x = false.
Proof.
  induction l as [| x l IH]; simpl; [split; [intros _ y [] | reflexivity] |].
  destruct (p x) eqn:Hx.
  - split; [discriminate |]. intros H. rewrite H in Hx by auto. discriminate.
  - rewrite IH. split.
    + intros H y [<- | Hy]; auto.
    + intros H y Hy. auto.
Qed.

(** The resolver, as the first of the least among the anchors after
    the current section. *)
Lemma find_next_available_section_first_min (all_sections : list (str * str))
    (current_section : str) :
  find_next_available_section all_sections current_section =
  option_map snd
    (first_min (λ s, get_item_sort_key s.1)
       (List.filter (λ s, sorts_before current_section s.1) all_sections)).
Proof.
  unfold find_next_available_section.
  pose proof (head_sort_by (λ x : str * str * (N * str), x.2)
    (List.filter (λ x, tuple_ltb (get_item_sort_key current_section) x.2)
       (List.map (λ s : str * str, (s.1, s.2, get_item_sort_key s.1))
          all_sections))) as Hhead.
  rewrite filter_map_commute, first_min_map in Hhead. simpl in Hhead.
  rewrite filter_map_commute.
  destruct (sort_by _ _) as [| first rest]; simpl in Hhead;
    unfold sorts_before; destruct (first_min _ _) as [m |];
    simpl in *; try discriminate; [reflexivity |].
  injection Hhead as ->. reflexivity.
Qed.

Definition three_anchors : list (str * str) :=
  [(lit "item_1", lit "s1"); (lit "item_1a", lit "s1a");
   (lit "item_7", lit "s7")].



(** ** The explicit pattern *)

Lemma lstrip_class_app (f : N → bool) (ws t : str) :
  forallb f ws = true →
  match t with c :: _ => f c = false | [] => True end →
  lstrip_class f (ws ++ t) = t.
Proof.
  intros Hws Ht. induction ws as [| w ws IH]; simpl.
  - destruct t as [| c t]; [reflexivity |]. simpl. rewrite Ht. reflexivity.
  - simpl in Hws. apply andb_true_iff in Hws as [Hw Hws].
    rewrite Hw. exact (IH Hws).
Qed.

Lemma lstrip_class_split (f : N → bool) (s : str) :
  ∃ ws, s = ws ++ lstrip_class f s ∧ forallb f ws = true.
Proof.
  induction s as [| c s (ws & IH & Hws)]; simpl.
  - exists []. auto.
  - destruct (f c) eqn:Hc.
    + exists (c :: ws). simpl. rewrite Hc, Hws. rewrite <- IH. auto.
    + exists []. auto.
Qed.

Lemma span_split (f : N → bool) (s a b : str) :
  span f s = (a, b) →
  s = a ++ b ∧ forallb f a = true
  ∧ match b with c :: _ => f c = false | [] => True end.
Proof.
  revert a b. induction s as [| c s IH]; intros a b; simpl.
  - intros [= <- <-]. auto.
  - destruct (f c) eqn:Hc.
    + destruct (span f s) as [a' b'] eqn:E. intros [= <- <-].
      destruct (IH a' b' eq_refl) as (-> & Ha & Hb).
      simpl. rewrite Hc, Ha. auto.
    + intros [= <- <-]. simpl. auto.
Qed.

(** What [([a-z]?)] takes after the digits: the letter that follows
    them, or nothing when what follows is no letter (and no digit, the
    digits being all taken). *)
Definition greedy_letter (letter rest : str) : Prop :=
  match letter with
  | [] =>
      match rest with
      | c :: _ => isdecimal c = false ∧ is_a_z c = false
      | [] => True
      end
  | [c] => is_a_z c = true
  | _ => False
  end.

Lemma match_num_letter_Some (t num letter : str) :
  match_num_letter t = Some (num, letter) ↔
  ∃ rest,
    t = num ++ letter ++ rest
    ∧ num ≠ [] ∧ forallb isdecimal num = true ∧ greedy_letter letter rest.
Proof.
  split.
  - unfold match_num_letter.
    destruct (span isdecimal t) as [a b] eqn:E.
    apply span_split in E as (-> & Ha & Hb).
    destruct a as [| d a]; [discriminate |].
    destruct b as [| c b].
    + intros [= <- <-]. exists []. simpl. auto.
    + destruct (is_a_z c) eqn:Hc; intros [= <- <-].
      * exists b. simpl. auto.
      * exists (c :: b). simpl. auto.
  - intros (rest & -> & Hne & Hnum & Hletter).
    apply match_num_letter_app; assumption.
Qed.

Lemma match_num_letter_digit (d : N) (t : str) :
  isdecimal d = true → match_num_letter (d :: t) ≠ None.
Proof.
  intros Hd. unfold match_num_letter. simpl. rewrite Hd.
  destruct (span isdecimal t) as [a b].
  destruct b as [| c b]; [discriminate |].
  destruct (is_a_z c); discriminate.
Qed.

(** [item\s*(\d+)([a-z]?)] matches at the start of [s], with these
    groups. *)
Definition item_match_at (s num letter : str) : Prop :=
  ∃ ws rest,
    s = lit "item" ++ ws ++ num ++ letter ++ rest
    ∧ forallb isspace ws = true
    ∧ num ≠ [] ∧ forallb isdecimal num = true ∧ greedy_letter letter rest.

(** The text begins with "item", optional whitespace and a number. *)
Definition item_pattern_at (s : str) : Prop :=
  ∃ ws num rest,
    s = lit "item" ++ ws ++ num ++ rest
    ∧ forallb isspace ws = true
    ∧ num ≠ [] ∧ forallb isdecimal num = true.

Lemma digit_not_space (d : N) : isdecimal d = true → isspace d = false.
Proof.
  intros Hd. destruct (isspace d) eqn:E; [| reflexivity].
  rewrite (space_not_decimal d E) in Hd. discriminate.
Qed.

Lemma match_item_at_Some (s num letter : str) :
  match_item_at s = Some (num, letter) ↔ item_match_at s num letter.
Proof.
  unfold match_item_at, item_match_at. split.
  - destruct (strip_prefix (lit "item") s) as [r |] eqn:E; [| discriminate].
    apply strip_prefix_Some in E as ->.
    destruct (lstrip_class_split isspace r) as (ws & Hr & Hws).
    intros H. apply match_num_letter_Some in H as (rest & Ht & Hrest).
    exists ws, rest. rewrite <- Ht, <- Hr. auto.
  - intros (ws & rest & -> & Hws & Hne & Hnum & Hletter).
    rewrite strip_prefix_app, lstrip_class_app; [| exact Hws |].
    + apply match_num_letter_app; assumption.
    + destruct num as [| d num]; [congruence |]. simpl.
      simpl in Hnum. apply andb_true_iff in Hnum as [Hd _].
      apply digit_not_space, Hd.
Qed.

Lemma match_item_at_None (s : str) :
  match_item_at s = None ↔ ¬ item_pattern_at s.
Proof.
  split.
  - intros H (ws & num & rest & -> & Hws & Hne & Hnum).
    unfold match_item_at in H.
    destruct num as [| d num]; [congruence |].
    simpl in Hnum. apply andb_true_iff in Hnum as [Hd _].
    rewrite strip_prefix_app, lstrip_class_app in H;
      [| exact Hws | apply digit_not_space, Hd].
    exact (match_num_letter_digit d _ Hd H).
  - intros H. destruct (match_item_at s) as [[num letter] |] eqn:E;
      [| reflexivity].
    exfalso. apply H.
    apply match_item_at_Some in E
      as (ws & rest & -> & Hws & Hne & Hnum & _).
    exists ws, num, (letter ++ rest). auto.
Qed.

Lemma item_pattern_at_dec (s : str) :
  item_pattern_at s ∨ ¬ item_pattern_at s.
Proof.
  destruct (match_item_at s) as [[num letter] |] eqn:E.
  - left. apply match_item_at_Some in E
      as (ws & rest & -> & Hws & Hne & Hnum & _).
    exists ws, num, (letter ++ rest). auto.
  - right. apply match_item_at_None, E.
Qed.

Lemma re_search_item_None (s : str) :
  re_search_item s = None ↔
  ∀ before tail, s = before ++ tail → match_item_at tail = None.
Proof.
  induction s as [| c s IH].
  - split; [| reflexivity]. intros _ before tail H.
    destruct before, tail; try discriminate. reflexivity.
  - simpl. destruct (match_item_at (c :: s)) eqn:E.
    + split; [discriminate |]. intros H.
      rewrite (H [] (c :: s) eq_refl) in E. discriminate.
    + rewrite IH. split.
      * intros H [| b before] tail Heq.
        -- simpl in Heq. subst tail. exact E.
        -- injection Heq as <- Heq. eauto.
      * intros H before tail Heq. apply (H (c :: before) tail).
        simpl. rewrite Heq. reflexivity.
Qed.

Lemma re_search_item_Some (s : str) (groups : str * str) :
  re_search_item s = Some groups ↔
  ∃ before tail,
    s = before ++ tail
    ∧ match_item_at tail = Some groups
    ∧ ∀ before' tail',
        s = before' ++ tail' → (length before' < length before)%nat →
        match_item_at tail' = None.
Proof.
  induction s as [| c s IH].
  - split; [discriminate |].
    intros (before & tail & Heq & Hm & _).
    destruct before, tail; discriminate.
  - simpl. destruct (match_item_at (c :: s)) eqn:E.
    + split.
      * intros [= <-]. exists [], (c :: s). split; [reflexivity |].
        split; [exact E |]. intros ? ? _ Hlt. simpl in Hlt. lia.
      * intros ([| b before] & tail & Heq & Hm & Hleft).
        -- simpl in Heq. subst tail. congruence.
        -- specialize (Hleft [] (c :: s) eq_refl).
           simpl in Hleft. rewrite Hleft in E by lia. discriminate.
    + rewrite IH. split.
      * intros (before & tail & -> & Hm & Hleft).
        exists (c :: before), tail. split; [reflexivity |].
        split; [exact Hm |].
        intros [| b before'] tail' Heq Hlt.
        -- simpl in Heq. subst tail'. exact E.
        -- injection Heq as <- Heq. apply (Hleft before' tail' Heq).
           simpl in Hlt. lia.
      * intros ([| b before] & tail & Heq & Hm & Hleft).
        -- simpl in Heq. subst tail. congruence.
        -- injection Heq as <- ->. exists before, tail.
           split; [reflexivity |]. split; [exact Hm |].
           intros before' tail' Heq Hlt.
           apply (Hleft (c :: before') tail').
           ++ simpl. rewrite Heq. reflexivity.
           ++ simpl. lia.
Qed.

(** ** Normalization of ASCII text *)

Definition ascii_lower (c : N) : N := if is_ascii_upper c then c + 32 else c.

(** The database agrees with Unicode on Basic Latin: no decomposition,
    combining class 0, ASCII case mapping and ASCII letters and digits. *)
Definition ascii_compatible (U : UCD) : Prop :=
  ∀ c, c < 128 →
    decomposition U c = [c]
    ∧ combining U c = 0
    ∧ tolower_full U c = [ascii_lower c]
    ∧ isalnum U c = is_ascii_alnum c.

(** [normalize_anchor_text] on ASCII text, without the database. *)
Definition normalize_ascii (s : str) : str :=
  strip (collapse_whitespace
           (List.filter (λ c, is_ascii_alnum c || (c =? 95) || isspace c)
              (List.map ascii_lower s))).

Definition is_ascii (s : str) : bool := forallb (λ c, c <? 128) s.

Section AsciiText.
Variable U : UCD.
Hypothesis HU : ascii_compatible U.

Lemma is_ascii_cons (c : N) (s : str) :
  is_ascii (c :: s) = true → c < 128 ∧ is_ascii s = true.
Proof.
  unfold is_ascii. simpl. rewrite andb_true_iff, N.ltb_lt. tauto.
Qed.

Lemma nfkd_ascii (s : str) : is_ascii s = true → nfkd U s = s.
Proof.
  unfold nfkd. induction s as [| c s IH]; [reflexivity |].
  intros Hs. apply is_ascii_cons in Hs as [Hc Hs].
  simpl. destruct (HU c Hc) as (-> & _). simpl.
  unfold canonical_order in *. simpl. rewrite (IH Hs).
  destruct s as [| d s]; [reflexivity |]. simpl.
  apply is_ascii_cons in Hs as [Hd _].
  destruct (HU d Hd) as (_ & -> & _). reflexivity.
Qed.

Lemma replace_nbsp_ascii (s : str) : is_ascii s = true → replace_nbsp s = s.
Proof.
  induction s as [| c s IH]; [reflexivity |].
  intros Hs. apply is_ascii_cons in Hs as [Hc Hs].
  simpl. rewrite (IH Hs).
  destruct (N.eqb_spec c 160); [lia | reflexivity].
Qed.

Lemma lower_from_ascii (before s : str) :
  is_ascii s = true → lower_from U before s = List.map ascii_lower s.
Proof.
  revert before. induction s as [| c s IH]; intros before; [reflexivity |].
  intros Hs. apply is_ascii_cons in Hs as [Hc Hs].
  simpl. destruct (N.eqb_spec c 931); [lia |].
  destruct (HU c Hc) as (_ & _ & -> & _). simpl. rewrite (IH _ Hs).
  reflexivity.
Qed.

Lemma ascii_lower_lt (c : N) : c < 128 → ascii_lower c < 128.
Proof.
  unfold ascii_lower, is_ascii_upper. intros Hc.
  destruct (65 <=? c) eqn:H1; destruct (c <=? 90) eqn:H2; simpl; try lia.
  apply N.leb_le in H2. lia.
Qed.

Lemma remove_punctuation_ascii (s : str) :
  is_ascii s = true →
  remove_punctuation U (List.map ascii_lower s) =
  List.filter (λ c, is_ascii_alnum c || (c =? 95) || isspace c)
    (List.map ascii_lower s).
Proof.
  unfold remove_punctuation, is_word.
  induction s as [| c s IH]; [reflexivity |].
  intros Hs. apply is_ascii_cons in Hs as [Hc Hs].
  simpl. rewrite (IH Hs).
  destruct (HU _ (ascii_lower_lt c Hc)) as (_ & _ & _ & ->). reflexivity.
Qed.

Lemma normalize_anchor_text_ascii (s : str) :
  is_ascii s = true → normalize_anchor_text U s = normalize_ascii s.
Proof.
  intros Hs. unfold normalize_anchor_text, normalize_ascii, lower.
  rewrite (nfkd_ascii s Hs), (replace_nbsp_ascii s Hs),
    (lower_from_ascii [] s Hs), (remove_punctuation_ascii s Hs).
  reflexivity.
Qed.

End AsciiText.

Lemma ucd_fragment_ascii : ascii_compatible ucd_fragment.
Proof.
  intros c Hc. unfold ucd_fragment, ascii_lower. simpl.
  destruct (N.eqb_spec c 160); [lia |].
  destruct (N.eqb_spec c 201); [lia |].
  destruct (N.eqb_spec c 233); [lia |].
  destruct (N.eqb_spec c 769); [lia |].
  destruct (N.eqb_spec c 931); [lia |].
  destruct (N.eqb_spec c 962); [lia |].
  destruct (N.eqb_spec c 963); [lia |].
  rewrite !orb_false_r. destruct (is_ascii_upper c); auto.
Qed.

(** ** Explicit classification *)

(** The labels "Item N" and "Item N<letter>", the letter in either
    case. *)
Definition item_label (n : N) (L : str) : str :=
  lit "Item " ++ str_of_int n ++ L.

Definition label_letters : list str :=
  [[]; lit "a"; lit "b"; lit "c"; lit "A"; lit "B"; lit "C"].

Lemma between_1_20 (n : N) :
  1 ≤ n ≤ 20 → In n (List.map N.of_nat (seq 1 20)).
Proof.
  intros H. rewrite <- (N2Nat.id n). apply in_map, in_seq. lia.
Qed.

Lemma item_label_round_trip (U : UCD) (n : N) (L : str) :
  ascii_compatible U → 1 ≤ n ≤ 20 → In L label_letters →
  is_target_item_explicit U (item_label n L)
  = (true, section_key (str_of_int n) (List.map ascii_lower L))
  ∧ get_item_sort_key (section_key (str_of_int n) (List.map ascii_lower L))
    = (n, List.map ascii_lower L).
Proof.
  intros HU Hn HL. apply between_1_20 in Hn.
  unfold is_target_item_explicit.
  simpl in Hn. unfold label_letters in HL. simpl in HL.
  repeat match goal with
         | H : _ ∨ _ |- _ => destruct H as [<- | H]
         | H : False |- _ => destruct H
         end;
    (rewrite (normalize_anchor_text_ascii U HU) by reflexivity);
    split; vm_compute; reflexivity.
Qed.

(** C5.  When the normalized label contains "item", optional
    whitespace and a number, the explicit classifier answers true with
    the key made of the digits and the optional letter of the leftmost
    such place, whether or not that key is a known one (item_99z is
    none); otherwise it answers (false, "").  For the numbers 1 to 20
    with no letter or a letter a to c, the key of the label "Item
    N<letter>" parses back to the same number and letter, so different
    pairs give different keys. *)
Theorem is_target_item_explicit_spec (U : UCD) :
  (∀ text key,
     is_target_item_explicit U text = (true, key) ↔
     ∃ before tail num letter,
       normalize_anchor_text U text = before ++ tail
       ∧ item_match_at tail num letter
       ∧ (∀ before' tail',
            normalize_anchor_text U text = before' ++ tail' →
            (length before' < length before)%nat →
            ¬ item_pattern_at tail')
       ∧ key = section_key num letter)
  ∧ (∀ text,
       (∃ before tail,
          normalize_anchor_text U text = before ++ tail
          ∧ item_pattern_at tail) →
       (is_target_item_explicit U text).1 = true)
  ∧ (∀ text,
       (¬ ∃ before tail,
            normalize_anchor_text U text = before ++ tail
            ∧ item_pattern_at tail) →
       is_target_item_explicit U text = (false, []))
  ∧ (ascii_compatible U →
     is_target_item_explicit U (lit "Item 99Z. Other") = (true, lit "item_99z")
     ∧ ¬ In (lit "item_99z") (List.map fst SECTION_MAPPINGS))
  ∧ (ascii_compatible U →
     ∀ n L, 1 ≤ n ≤ 20 → In L label_letters →
       is_target_item_explicit U (item_label n L)
       = (true, section_key (str_of_int n) (List.map ascii_lower L))
       ∧ get_item_sort_key
           (section_key (str_of_int n) (List.map ascii_lower L))
         = (n, List.map ascii_lower L))
  ∧ (ascii_compatible U →
     ∀ n L n' L' key,
       1 ≤ n ≤ 20 → In L label_letters →
       1 ≤ n' ≤ 20 → In L' label_letters →
       is_target_item_explicit U (item_label n L) = (true, key) →
       is_target_item_explicit U (item_label n' L') = (true, key) →
       n = n' ∧ List.map ascii_lower L = List.map ascii_lower L').
Proof.
  split; [| split; [| split; [| split; [| split]]]].
  - intros text key. unfold is_target_item_explicit.
    destruct (re_search_item (normalize_anchor_text U text))
      as [[num letter] |] eqn:E.
    + apply re_search_item_Some in E as (before & tail & Heq & Hm & Hleft).
      split.
      * intros [= <-]. exists before, tail, num, letter.
        split; [exact Heq |].
        split; [apply match_item_at_Some, Hm |].
        split; [| reflexivity].
        intros before' tail' Heq' Hlt. apply match_item_at_None. eauto.
      * intros (before2 & tail2 & num2 & letter2 & Heq2 & Hm2 & Hleft2 & ->).
        apply match_item_at_Some in Hm2.
        destruct (Nat.lt_trichotomy (length before) (length before2))
          as [Hlt | [Hlen | Hlt]].
        -- exfalso. apply (Hleft2 before tail Heq Hlt).
           destruct (match_item_at_None tail) as [_ Hnone].
           destruct (item_pattern_at_dec tail) as [Hp | Hp]; [exact Hp |].
           rewrite (Hnone Hp) in Hm. discriminate.
        -- assert (before = before2 ∧ tail = tail2) as [-> ->].
           { rewrite Heq in Heq2.
             apply app_inj_1 in Heq2; [exact Heq2 | exact Hlen]. }
           rewrite Hm in Hm2. injection Hm2 as <- <-. reflexivity.
        -- rewrite (Hleft before2 tail2 Heq2 Hlt) in Hm2. discriminate.
    + split; [discriminate |].
      intros (before & tail & num & letter & Heq & Hm & _).
      apply match_item_at_Some in Hm.
      rewrite (proj1 (re_search_item_None _) E before tail Heq) in Hm.
      discriminate.
  - intros text (before & tail & Heq & Hpat). unfold is_target_item_explicit.
    destruct (re_search_item (normalize_anchor_text U text))
      as [[num letter] |] eqn:E; [reflexivity |].
    exfalso. apply (proj1 (match_item_at_None tail)); [| exact Hpat].
    apply (proj1 (re_search_item_None _) E before tail Heq).
  - intros text Hnone. unfold is_target_item_explicit.
    destruct (re_search_item (normalize_anchor_text U text))
      as [[num letter] |] eqn:E; [| reflexivity].
    exfalso. apply Hnone.
    apply re_search_item_Some in E as (before & tail & Heq & Hm & _).
    exists before, tail. split; [exact Heq |].
    apply match_item_at_Some in Hm
      as (ws & rest & -> & Hws & Hne & Hnum & _).
    exists ws, num, (letter ++ rest). auto.
  - intros HU. split.
    + unfold is_target_item_explicit.
      rewrite (normalize_anchor_text_ascii U HU) by reflexivity.
      vm_compute. reflexivity.
    + vm_compute. intros H.
      repeat (destruct H as [H | H]; [discriminate H |]). exact H.
  - intros HU n L Hn HL. apply item_label_round_trip; assumption.
  - intros HU n L n' L' key Hn HL Hn' HL' H H'.
    destruct (item_label_round_trip U n L HU Hn HL) as [E K].
    destruct (item_label_round_trip U n' L' HU Hn' HL') as [E' K'].
    rewrite E in H. rewrite E' in H'.
    assert (Hkey : section_key (str_of_int n) (List.map ascii_lower L)
                   = section_key (str_of_int n') (List.map ascii_lower L'))
      by congruence.
    rewrite Hkey, K' in K. injection K as <- <-. auto.
Qed.

Lemma is_target_item_explicit_spec_witness :
  is_target_item_explicit ucd_fragment (item_label 7 (lit "A"))
  = (true, section_key (str_of_int 7) (lit "a"))
  ∧ get_item_sort_key (section_key (str_of_int 7) (lit "a")) = (7, lit "a").
Proof.
  apply (proj1 (proj2 (proj2 (proj2 (proj2
           (is_target_item_explicit_spec ucd_fragment)))))
           ucd_fragment_ascii 7 (lit "A")).
  - lia.
  - unfold label_letters. simpl. auto 10.
Defined.

(** ** Whitespace: collapsing and stripping *)

(** No whitespace but the space, and no two spaces in a row. *)
Fixpoint collapsed (after_space : bool) (s : str) : bool :=
  match s with
  | [] => true
  | c :: r =>
      if isspace c then (c =? 32) && negb after_space && collapsed true r
      else collapsed false r
  end.

Lemma collapse_from_collapsed (b : bool) (s : str) :
  collapsed b (collapse_from b s) = true.
Proof.
  revert b. induction s as [| c s IH]; intros b; [reflexivity |].
  simpl. destruct (isspace c) eqn:Hc.
  - destruct b; [apply IH |]. simpl. apply IH.
  - simpl. rewrite Hc. apply IH.
Qed.

Lemma collapsed_fixed (b : bool) (s : str) :
  collapsed b s = true → collapse_from b s = s.
Proof.
  revert b. induction s as [| c s IH]; intros b; [reflexivity |].
  simpl. destruct (isspace c) eqn:Hc.
  - rewrite !andb_true_iff, N.eqb_eq, negb_true_iff.
    intros [[-> ->] H]. rewrite (IH true H). reflexivity.
  - intros H. rewrite (IH false H). reflexivity.
Qed.

Lemma collapsed_weaken (b : bool) (s : str) :
  collapsed b s = true → collapsed false s = true.
Proof.
  destruct s as [| c s]; [reflexivity |]. simpl.
  destruct (isspace c); [| tauto].
  rewrite !andb_true_iff. intros [[-> _] ->]. auto.
Qed.

Lemma collapsed_prefix (b : bool) (p q : str) :
  collapsed b (p ++ q) = true → collapsed b p = true.
Proof.
  revert b. induction p as [| c p IH]; intros b; [reflexivity |].
  simpl. destruct (isspace c); [| apply IH].
  rewrite !andb_true_iff. intros [H1 H2]. split; [exact H1 | eauto].
Qed.

Lemma collapsed_suffix (b : bool) (p q : str) :
  collapsed b (p ++ q) = true → collapsed false q = true.
Proof.
  revert b. induction p as [| c p IH]; intros b; [apply collapsed_weaken |].
  simpl. destruct (isspace c); [| apply IH].
  rewrite !andb_true_iff. intros [_ H]. eauto.
Qed.

(** The first code point, if any, is outside the class. *)
Definition head_outside (f : N → bool) (s : str) : Prop :=
  match s with c :: _ => f c = false | [] => True end.

Lemma lstrip_class_head (f : N → bool) (s : str) :
  head_outside f (lstrip_class f s).
Proof.
  induction s as [| c s IH]; simpl; [exact I |].
  destruct (f c) eqn:Hc; [exact IH | exact Hc].
Qed.

Lemma lstrip_class_fixed (f : N → bool) (s : str) :
  head_outside f s → lstrip_class f s = s.
Proof. destruct s as [| c s]; simpl; [reflexivity | intros ->; reflexivity]. Qed.

(** What [strip_class] returns lies between two runs of the class and
    neither begins nor ends in the class. *)
Lemma strip_class_split (f : N → bool) (s : str) :
  ∃ a b,
    s = a ++ strip_class f s ++ b
    ∧ head_outside f (strip_class f s)
    ∧ head_outside f (rev (strip_class f s)).
Proof.
  unfold strip_class.
  destruct (lstrip_class_split f s) as (a & Hs & _).
  destruct (lstrip_class_split f (rev (lstrip_class f s))) as (b & Hr & _).
  pose proof (lstrip_class_head f s) as Hhead.
  pose proof (lstrip_class_head f (rev (lstrip_class f s))) as Hlast.
  set (v := lstrip_class f s) in *.
  set (w := lstrip_class f (rev v)) in *.
  assert (Hv : v = rev w ++ rev b).
  { rewrite <- rev_app_distr, <- Hr, rev_involutive. reflexivity. }
  exists a, (rev b). split; [rewrite <- Hv; exact Hs |].
  split; [| rewrite rev_involutive; exact Hlast].
  destruct (rev w) as [| c t] eqn:E; [exact I |].
  rewrite Hv in Hhead. exact Hhead.
Qed.

Lemma strip_class_fixed (f : N → bool) (s : str) :
  head_outside f s → head_outside f (rev s) → strip_class f s = s.
Proof.
  intros H1 H2. unfold strip_class.
  rewrite (lstrip_class_fixed f s H1), (lstrip_class_fixed f (rev s) H2).
  apply rev_involutive.
Qed.

Lemma strip_class_idempotent (f : N → bool) (s : str) :
  strip_class f (strip_class f s) = strip_class f s.
Proof.
  destruct (strip_class_split f s) as (a & b & _ & H1 & H2).
  apply strip_class_fixed; assumption.
Qed.

Lemma collapse_from_In (b : bool) (s : str) (x : N) :
  In x (collapse_from b s) → x = 32 ∨ (In x s ∧ isspace x = false).
Proof.
  revert b. induction s as [| c s IH]; intros b; simpl; [tauto |].
  destruct (isspace c) eqn:Hc.
  - destruct b; simpl; intros H.
    + destruct (IH _ H) as [-> | [H1 H2]]; auto.
    + destruct H as [<- | H]; [auto |].
      destruct (IH _ H) as [-> | [H1 H2]]; auto.
  - intros [<- | H]; [auto |].
    destruct (IH _ H) as [-> | [H1 H2]]; auto.
Qed.

(** ** Idempotence of the normalizer *)

Section Idempotence.
Variable U : UCD.

(** What [str.lower] may put in place of a code point. *)
Definition lower_out (c : N) : str :=
  if c =? 931 then [962; 963] else tolower_full U c.

(** A code point that decomposition, reordering and lowercasing leave
    alone. *)
Definition stable (x : N) : Prop :=
  decomposition U x = [x] ∧ combining U x = 0 ∧ tolower_full U x = [x].

(** The facts of the database the normalizer rests on: a word
    character that comes out of decomposing and lowercasing is stable;
    so is the space; the no-break space decomposes to the space; and
    the capital sigma has the small sigma as its lowercase. *)
Definition ucd_closed : Prop :=
  (∀ c0 c x,
     In c (decomposition U c0) → In x (lower_out c) →
     is_word U x = true → stable x)
  ∧ stable 32
  ∧ decomposition U 160 = [32]
  ∧ tolower_full U 931 = [963].

Lemma reorder_insert_In (c x : N) (s : str) :
  In x (reorder_insert U c s) → x = c ∨ In x s.
Proof.
  induction s as [| d s IH]; simpl; [intros [<- | []]; auto |].
  destruct (_ && _); simpl; [| intros [<- | H]; auto].
  intros [<- | H]; [auto |]. destruct (IH H); auto.
Qed.

Lemma canonical_order_In (x : N) (s : str) :
  In x (canonical_order U s) → In x s.
Proof.
  unfold canonical_order. induction s as [| c s IH]; simpl; [tauto |].
  intros H. apply reorder_insert_In in H as [<- | H]; auto.
Qed.

Lemma nfkd_In (x : N) (s : str) :
  In x (nfkd U s) → ∃ c0, In x (decomposition U c0).
Proof.
  intros H. apply canonical_order_In, in_flat_map in H as (c0 & _ & H).
  eauto.
Qed.

Lemma lower_from_In (before s : str) (x : N) :
  In x (lower_from U before s) → ∃ c, In c s ∧ In x (lower_out c).
Proof.
  revert before. induction s as [| c s IH]; intros before; simpl; [tauto |].
  intros H. apply in_app_or in H as [H | H].
  - exists c. split; [auto |]. unfold lower_out.
    destruct (c =? 931); [| exact H].
    destruct (final_sigma U before s); simpl in *; tauto.
  - destruct (IH _ H) as (c' & Hc' & Hx). eauto.
Qed.

(** The code points of normalized text: the space, or a stable word
    character that is no whitespace. *)
Definition settled (x : N) : Prop :=
  x = 32 ∨ (isspace x = false ∧ is_word U x = true ∧ stable x).

Hypothesis HU : ucd_closed.

Lemma normalize_anchor_text_settled (s : str) (x : N) :
  In x (normalize_anchor_text U s) → settled x.
Proof.
  destruct HU as (Hkept & Hspace & Hnbsp & _).
  unfold normalize_anchor_text, strip. intros H.
  destruct (strip_class_split isspace
              (collapse_whitespace
                 (remove_punctuation U (lower U (replace_nbsp (nfkd U s))))))
    as (a & b & Heq & _).
  assert (Hin : In x (collapse_whitespace
                 (remove_punctuation U (lower U (replace_nbsp (nfkd U s)))))).
  { rewrite Heq. apply in_or_app. right. apply in_or_app. left. exact H. }
  apply collapse_from_In in Hin as [-> | [Hin Hns]]; [left; reflexivity |].
  right. apply filter_In in Hin as [Hin Hkeep].
  rewrite Hns, orb_false_r in Hkeep.
  split; [exact Hns |]. split; [exact Hkeep |].
  apply lower_from_In in Hin as (c & Hc & Hx).
  apply in_map_iff in Hc as (c' & <- & Hc').
  apply nfkd_In in Hc' as (c0 & Hc0).
  destruct (N.eqb_spec c' 160) as [-> | _].
  - destruct Hspace as (_ & _ & Hlow). unfold lower_out in Hx.
    simpl in Hx. rewrite Hlow in Hx. destruct Hx as [<- | []].
    discriminate Hns.
  - exact (Hkept c0 c' x Hc0 Hx Hkeep).
Qed.

Section Settled.
Variable t : str.
Hypothesis Ht : ∀ x, In x t → settled x.

Lemma tail_settled (c : N) (r : str) :
  (∀ x, In x (c :: r) → settled x) → ∀ x, In x r → settled x.
Proof. intros H x Hx. apply H. simpl. auto. Qed.

Lemma settled_stable (x : N) : settled x → stable x.
Proof.
  destruct HU as (_ & Hspace & _). intros [-> | (_ & _ & H)]; assumption.
Qed.

Lemma nfkd_settled : nfkd U t = t.
Proof.
  unfold nfkd, canonical_order. induction t as [| c r IH]; [reflexivity |].
  simpl. destruct (settled_stable c) as (-> & _); [apply Ht; simpl; auto |].
  simpl. rewrite IH by (apply (tail_settled c r Ht)).
  destruct r as [| d r']; [reflexivity |]. simpl.
  destruct (settled_stable d) as (_ & -> & _);
    [apply Ht; simpl; auto | reflexivity].
Qed.

Lemma replace_nbsp_settled : replace_nbsp t = t.
Proof.
  destruct HU as (_ & _ & Hnbsp & _).
  induction t as [| c r IH]; [reflexivity |].
  simpl. rewrite IH by (apply (tail_settled c r Ht)).
  destruct (N.eqb_spec c 160) as [-> |]; [| reflexivity].
  destruct (settled_stable 160) as (H & _); [apply Ht; simpl; auto |].
  rewrite Hnbsp in H. discriminate H.
Qed.

Lemma lower_settled (before : str) : lower_from U before t = t.
Proof.
  destruct HU as (_ & _ & _ & Hsigma).
  revert before. induction t as [| c r IH]; intros before; [reflexivity |].
  simpl. rewrite IH by (apply (tail_settled c r Ht)).
  destruct (settled_stable c) as (_ & _ & Hlow); [apply Ht; simpl; auto |].
  destruct (N.eqb_spec c 931) as [-> |].
  - rewrite Hsigma in Hlow. discriminate Hlow.
  - rewrite Hlow. reflexivity.
Qed.

Lemma remove_punctuation_settled : remove_punctuation U t = t.
Proof.
  unfold remove_punctuation. induction t as [| c r IH]; [reflexivity |].
  simpl. rewrite IH by (apply (tail_settled c r Ht)).
  destruct (Ht c) as [-> | (_ & -> & _)]; [simpl; auto | | reflexivity].
  change (isspace 32) with true. rewrite orb_true_r. reflexivity.
Qed.

End Settled.

(** C7.  The normalizer returns the empty string for the empty
    string, and normalizing twice is normalizing once. *)
Theorem normalize_anchor_text_idempotent (s : str) :
  normalize_anchor_text U [] = []
  ∧ normalize_anchor_text U (normalize_anchor_text U s)
    = normalize_anchor_text U s.
Proof.
  split; [reflexivity |].
  pose proof (normalize_anchor_text_settled s) as Hsettled.
  set (t := normalize_anchor_text U s) in *.
  unfold normalize_anchor_text at 1. unfold lower.
  rewrite (nfkd_settled t Hsettled), (replace_nbsp_settled t Hsettled),
    (lower_settled t Hsettled), (remove_punctuation_settled t Hsettled).
  subst t. unfold normalize_anchor_text, strip.
  set (u := collapse_whitespace
              (remove_punctuation U (lower U (replace_nbsp (nfkd U s))))).
  destruct (strip_class_split isspace u) as (a & b & Heq & _).
  assert (Hc : collapsed false (strip_class isspace u) = true).
  { assert (H : collapsed false u = true)
      by (subst u; apply collapse_from_collapsed).
    rewrite Heq in H.
    apply collapsed_suffix in H. apply collapsed_prefix in H. exact H. }
  unfold collapse_whitespace at 1. rewrite (collapsed_fixed false _ Hc).
  apply strip_class_idempotent.
Qed.

End Idempotence.

Lemma ucd_fragment_closed : ucd_closed ucd_fragment.
Proof.
  split; [| repeat split; reflexivity].
  intros c0 c x Hc Hx Hword.
  assert (Hc' : c = 32 ∨ c = 69 ∨ c = 101 ∨ c = 769
                ∨ (c ≠ 160 ∧ c ≠ 201 ∧ c ≠ 233)).
  { simpl in Hc.
    destruct (N.eqb_spec c0 160); [destruct Hc as [<- | []]; auto |].
    destruct (N.eqb_spec c0 201);
      [destruct Hc as [<- | [<- | []]]; auto 6 |].
    destruct (N.eqb_spec c0 233);
      [destruct Hc as [<- | [<- | []]]; auto 6 |].
    destruct Hc as [<- | []]. do 4 right. auto. }
  assert (Hx' : x ≠ 160 ∧ x ≠ 201 ∧ x ≠ 233 ∧ x ≠ 769 ∧ x ≠ 931
                ∧ is_ascii_upper x = false).
  { unfold lower_out in Hx. simpl in Hx.
    destruct (N.eqb_spec c 931) as [-> |].
    - destruct Hx as [<- | [<- | []]]; repeat split; discriminate.
    - assert (Hupper : is_ascii_upper c = true → is_ascii_upper (c + 32) = false).
      { unfold is_ascii_upper. rewrite andb_true_iff, andb_false_iff.
        rewrite !N.leb_le, !N.leb_gt. lia. }
      destruct (is_ascii_upper c) eqn:Hup.
      + destruct Hx as [<- | []]. specialize (Hupper eq_refl).
        unfold is_ascii_upper in Hup.
        rewrite andb_true_iff, !N.leb_le in Hup.
        repeat split; try lia. exact Hupper.
      + destruct (N.eqb_spec c 201) as [-> |].
        * destruct Hc' as [? | [? | [? | [? | ?]]]]; lia.
        * destruct Hx as [<- | []].
          repeat split; try lia; [| exact Hup].
          intros ->. discriminate Hword. }
  destruct Hx' as (H1 & H2 & H3 & H4 & H5 & H6).
  unfold stable. simpl.
  destruct (N.eqb_spec x 160); [lia |].
  destruct (N.eqb_spec x 201); [lia |].
  destruct (N.eqb_spec x 233); [lia |].
  destruct (N.eqb_spec x 769); [lia |].
  destruct (N.eqb_spec x 931); [lia |].
  rewrite H6. auto.
Qed.

Lemma normalize_anchor_text_idempotent_witness :
  normalize_anchor_text ucd_fragment
    (normalize_anchor_text ucd_fragment
       (lit "  Item" ++ [160] ++ lit "1A.  Risk  Factors "))
  = normalize_anchor_text ucd_fragment
      (lit "  Item" ++ [160] ++ lit "1A.  Risk  Factors ").
Proof.
  apply (proj2 (normalize_anchor_text_idempotent ucd_fragment
                  ucd_fragment_closed
                  (lit "  Item" ++ [160] ++ lit "1A.  Risk  Factors "))).
Defined.

(** ** Anchor discovery *)

Lemma insert_by_Permutation {A} (key : A → N * str) (x : A) (l : list A) :
  Permutation (insert_by key x l) (x :: l).
Proof.
  induction l as [| y l IH]; simpl; [reflexivity |].
  destruct (tuple_ltb _ _); [| reflexivity].
  rewrite IH. apply perm_swap.
Qed.

Lemma sort_by_Permutation {A} (key : A → N * str) (l : list A) :
  Permutation (sort_by key l) l.
Proof.
  unfold sort_by. induction l as [| x l IH]; simpl; [reflexivity |].
  rewrite insert_by_Permutation, IH. reflexivity.
Qed.

Section DiscoveryProperties.
Variable U : UCD.

(** The keys seen are the keys recorded, each of them once. *)
Definition catalog_ok (st : catalog) : Prop :=
  (∀ k, k ∈ st.2 ↔ In k (List.map fst st.1))
  ∧ List.NoDup (List.map fst st.1).

Lemma catalog_ok_empty : catalog_ok ([], ∅).
Proof.
  split; [| constructor]. intros k. simpl. split; [| tauto].
  intros H. apply elem_of_empty in H. exact H.
Qed.

Lemma record_anchor_ok (st : catalog) (item_key target : str) :
  catalog_ok st → unseen st item_key = true →
  catalog_ok (record_anchor st item_key target).
Proof.
  intros [Hseen Hnodup] Hnew.
  unfold unseen in Hnew. apply negb_true_iff, bool_decide_eq_false in Hnew.
  unfold record_anchor. split; simpl.
  - intros k. rewrite map_app, in_app_iff, elem_of_union, elem_of_singleton.
    simpl. rewrite Hseen. split; intros [H | H]; auto.
    + destruct H as [<- | []]. auto.
  - rewrite map_app. simpl.
    apply Permutation_NoDup with (l := item_key :: List.map fst st.1).
    + apply Permutation_cons_append.
    + constructor; [| exact Hnodup]. intros H. apply Hnew, Hseen, H.
Qed.

(** The key a label gives to a catalog: its explicit key when that is
    new, or else its semantic key when that is new. *)
Definition drawn_key (st : catalog) (label : str) : option str :=
  let '(is_explicit, item_key) := is_target_item_explicit U label in
  if is_explicit && unseen st item_key then Some item_key
  else
    let '(is_semantic, item_key) := is_target_item_semantic U label in
    if is_semantic && unseen st item_key then Some item_key else None.

Lemma drawn_key_unseen (st : catalog) (label k : str) :
  drawn_key st label = Some k → unseen st k = true.
Proof.
  unfold drawn_key.
  destruct (is_target_item_explicit U label) as [e ke].
  destruct (is_target_item_semantic U label) as [m km].
  destruct (e && unseen st ke) eqn:He.
  - intros [= <-]. apply andb_true_iff in He. tauto.
  - destruct (m && unseen st km) eqn:Hm; [| discriminate].
    intros [= <-]. apply andb_true_iff in Hm. tauto.
Qed.

(** The anchor is an in-document link with a label. *)
Definition eligible (a : anchor) : bool :=
  startswith (strip (a_href a)) (lit "#") && truthy (a_text a).

Definition anchor_target (a : anchor) : str := strip_hash (strip (a_href a)).

Lemma anchor_step_drawn (st : catalog) (a : anchor) :
  anchor_step U st a =
  if eligible a
  then match drawn_key st (a_text a) with
       | Some k => record_anchor st k (anchor_target a)
       | None => st
       end
  else st.
Proof.
  unfold anchor_step, eligible, drawn_key, anchor_target.
  destruct (startswith _ _); simpl; [| reflexivity].
  destruct (truthy (a_text a)); simpl; [| reflexivity].
  destruct (is_target_item_explicit U (a_text a)) as [e ke].
  destruct (is_target_item_semantic U (a_text a)) as [m km].
  destruct (e && unseen st ke); [reflexivity |].
  destruct (m && unseen st km); reflexivity.
Qed.

Lemma anchor_step_ok (st : catalog) (a : anchor) :
  catalog_ok st → catalog_ok (anchor_step U st a).
Proof.
  intros Hst. rewrite anchor_step_drawn.
  destruct (eligible a); [| exact Hst].
  destruct (drawn_key st (a_text a)) as [k |] eqn:E; [| exact Hst].
  apply record_anchor_ok; [exact Hst | exact (drawn_key_unseen _ _ _ E)].
Qed.

(** The state of the loop after the anchors [l]. *)
Definition scan_state (l : list anchor) : catalog :=
  fold_left (anchor_step U) l ([], ∅).

Lemma scan_state_ok (l : list anchor) : catalog_ok (scan_state l).
Proof.
  unfold scan_state. generalize catalog_ok_empty.
  generalize (([], ∅) : catalog).
  induction l as [| a l IH]; intros st Hst; simpl; [exact Hst |].
  apply IH, anchor_step_ok, Hst.
Qed.

Lemma anchor_step_extends (st : catalog) (a : anchor) :
  ∃ more, (anchor_step U st a).1 = st.1 ++ more.
Proof.
  rewrite anchor_step_drawn. destruct (eligible a).
  - destruct (drawn_key st (a_text a)) as [k |].
    + simpl. eauto.
    + exists []. rewrite app_nil_r. reflexivity.
  - exists []. rewrite app_nil_r. reflexivity.
Qed.

Lemma fold_anchor_step_extends (l : list anchor) (st : catalog) :
  ∃ more, (fold_left (anchor_step U) l st).1 = st.1 ++ more.
Proof.
  revert st. induction l as [| a l IH]; intros st; simpl.
  - exists []. rewrite app_nil_r. reflexivity.
  - destruct (IH (anchor_step U st a)) as (more & ->).
    destruct (anchor_step_extends st a) as (more' & ->).
    exists (more' ++ more). rewrite app_assoc. reflexivity.
Qed.

(** The same for the text search. *)
Lemma claim_element_target (found : list (str * str)) (k : str) (e : element) :
  ∃ e' target, claim_element found k e = (e', target).
Proof. destruct (claim_element found k e) as [e' target]. eauto. Qed.

Lemma text_search_step_drawn (st : catalog * list element) (e : element) :
  (text_search_step U st e).1 = st.1
  ∨ ∃ k target,
      drawn_key st.1 (el_text e) = Some k
      ∧ (text_search_step U st e).1 = record_anchor st.1 k target.
Proof.
  destruct st as [cat visited]. unfold text_search_step, drawn_key. simpl.
  destruct (negb (truthy (el_text e)) || (200 <? len (el_text e)));
    [left; reflexivity |].
  destruct (is_target_item_explicit U (el_text e)) as [x kx].
  destruct (is_target_item_semantic U (el_text e)) as [m km].
  destruct (x && unseen cat kx).
  - destruct (claim_element cat.1 kx e) as [e' target]. right. eauto.
  - destruct (m && unseen cat km).
    + destruct (claim_element cat.1 km e) as [e' target]. right. eauto.
    + left. reflexivity.
Qed.

Lemma text_search_step_ok (st : catalog * list element) (e : element) :
  catalog_ok st.1 → catalog_ok (text_search_step U st e).1.
Proof.
  intros Hst.
  destruct (text_search_step_drawn st e) as [-> | (k & target & Hk & ->)];
    [exact Hst |].
  apply record_anchor_ok; [exact Hst | exact (drawn_key_unseen _ _ _ Hk)].
Qed.

Lemma text_search_ok (l : list element) (st : catalog * list element) :
  catalog_ok st.1 → catalog_ok (fold_left (text_search_step U) l st).1.
Proof.
  revert st. induction l as [| e l IH]; intros st Hst; simpl; [exact Hst |].
  apply IH, text_search_step_ok, Hst.
Qed.

(** The element has a text of at most 200 code points. *)
Definition searchable (e : element) : bool :=
  truthy (el_text e) && negb (200 <? len (el_text e)).

(** The state of the loop of the text search after the elements [l],
    and the sections found by then. *)
Definition search_state (l : list element) : catalog :=
  (fold_left (text_search_step U) l (([], ∅), [])).1.

Definition search_sections (l : list element) : list (str * str) :=
  (search_state l).1.

Lemma text_search_step_catalog (st : catalog * list element) (e : element) :
  (text_search_step U st e).1 =
  if searchable e
  then match drawn_key st.1 (el_text e) with
       | Some k => record_anchor st.1 k (claim_element st.1.1 k e).2
       | None => st.1
       end
  else st.1.
Proof.
  destruct st as [cat visited].
  unfold text_search_step, searchable, drawn_key. cbn [fst snd].
  destruct (truthy (el_text e)); cbn [negb orb andb]; [| reflexivity].
  destruct (200 <? len (el_text e)); cbn [negb]; [reflexivity |].
  destruct (is_target_item_explicit U (el_text e)) as [x kx].
  destruct (is_target_item_semantic U (el_text e)) as [m km].
  destruct (x && unseen cat kx).
  - destruct (claim_element cat.1 kx e). reflexivity.
  - destruct (m && unseen cat km); [| reflexivity].
    destruct (claim_element cat.1 km e). reflexivity.
Qed.

(** The sections found do not depend on the elements collected. *)
Lemma fold_text_search_catalog (l : list element)
    (st st' : catalog * list element) :
  st.1 = st'.1 →
  (fold_left (text_search_step U) l st).1
  = (fold_left (text_search_step U) l st').1.
Proof.
  revert st st'. induction l as [| e l IH]; intros st st' H;
    cbn [fold_left]; [exact H |].
  apply IH. rewrite !text_search_step_catalog, H. reflexivity.
Qed.

Lemma fold_text_search_extends (l : list element)
    (st : catalog * list element) :
  ∃ more, (fold_left (text_search_step U) l st).1.1 = st.1.1 ++ more.
Proof.
  revert st. induction l as [| e l IH]; intros st; cbn [fold_left].
  - exists []. rewrite app_nil_r. reflexivity.
  - destruct (IH (text_search_step U st e)) as (more & ->).
    rewrite text_search_step_catalog.
    destruct (searchable e);
      [destruct (drawn_key st.1 (el_text e)) as [k |] |];
      cbn [record_anchor fst]; [| eauto ..].
    rewrite <- app_assoc. eauto.
Qed.

Lemma search_sections_app (l1 l2 : list element) :
  ∃ visited,
    search_state (l1 ++ l2)
    = (fold_left (text_search_step U) l2 (search_state l1, visited)).1.
Proof.
  unfold search_state. rewrite fold_left_app.
  exists (fold_left (text_search_step U) l1 (([], ∅), [])).2.
  destruct (fold_left (text_search_step U) l1 (([], ∅), [])). reflexivity.
Qed.

Lemma search_state_ok (l : list element) : catalog_ok (search_state l).
Proof. apply text_search_ok, catalog_ok_empty. Qed.

(** The first element that draws a key is recorded for it, with its id
    or name, or the id made up for it, as target. *)
Lemma search_sections_records (l1 l2 : list element) (e : element) (k : str) :
  searchable e = true →
  drawn_key (search_state l1) (el_text e) = Some k →
  ¬ In k (List.map fst (search_sections l1))
  ∧ ∃ more,
      search_sections (l1 ++ e :: l2)
      = search_sections l1
        ++ (k, (claim_element (search_sections l1) k e).2) :: more.
Proof.
  intros He Hk. split.
  - pose proof (drawn_key_unseen _ _ _ Hk) as Hnew.
    apply negb_true_iff, bool_decide_eq_false in Hnew.
    intros Hin. apply Hnew. apply (search_state_ok l1). exact Hin.
  - unfold search_sections.
    destruct (search_sections_app l1 (e :: l2)) as (visited & ->).
    cbn [fold_left].
    destruct (fold_text_search_extends l2
                (text_search_step U (search_state l1, visited) e))
      as (more & ->).
    rewrite text_search_step_catalog. cbn [fst]. rewrite He, Hk.
    exists more. cbn [record_anchor fst]. rewrite <- app_assoc. reflexivity.
Qed.

(** An element that is not searchable or draws no key is ignored. *)
Lemma search_sections_ignores (l1 l2 : list element) (e : element) :
  searchable e = false ∨ drawn_key (search_state l1) (el_text e) = None →
  search_sections (l1 ++ e :: l2) = search_sections (l1 ++ l2).
Proof.
  intros H. unfold search_sections.
  destruct (search_sections_app l1 (e :: l2)) as (visited & ->).
  destruct (search_sections_app l1 l2) as (visited' & ->).
  cbn [fold_left]. f_equal. apply fold_text_search_catalog.
  rewrite text_search_step_catalog. cbn [fst].
  destruct H as [-> | ->]; [reflexivity |].
  destruct (searchable e); reflexivity.
Qed.

Lemma extract_sections_by_text_search_sections (soup : document) :
  (extract_sections_by_text_search U soup).1
  = search_sections (doc_elements soup).
Proof.
  unfold extract_sections_by_text_search, search_sections, search_state.
  destruct (fold_left _ _ _) as [cat visited]. reflexivity.
Qed.

Lemma extract_sections_by_text_search_NoDup (soup : document) :
  List.NoDup (List.map fst (extract_sections_by_text_search U soup).1).
Proof.
  unfold extract_sections_by_text_search.
  pose proof (text_search_ok (doc_elements soup) (([], ∅), [])
                catalog_ok_empty) as [_ H].
  destruct (fold_left _ _ _) as [cat visited]. exact H.
Qed.

Lemma scan_anchors_NoDup (l : list anchor) :
  List.NoDup (List.map fst (scan_anchors U l)).
Proof. apply (scan_state_ok l). Qed.

Lemma extract_all_section_anchors_NoDup (soup : document) :
  List.NoDup (List.map fst (extract_all_section_anchors U soup).1).
Proof.
  unfold extract_all_section_anchors.
  pose proof (scan_anchors_NoDup (doc_anchors soup)) as Ha.
  pose proof (extract_sections_by_text_search_NoDup soup) as Ht.
  destruct (scan_anchors U (doc_anchors soup)) as [| x l] eqn:E.
  - destruct (extract_sections_by_text_search U soup) as [found soup'].
    simpl in *.
    apply (Permutation_NoDup
             (Permutation_sym
                (Permutation_map fst (sort_by_Permutation _ found)))).
    exact Ht.
  - simpl.
    apply (Permutation_NoDup
             (Permutation_sym
                (Permutation_map fst (sort_by_Permutation _ (x :: l))))).
    exact Ha.
Qed.

End DiscoveryProperties.

Lemma drawn_key_sound (U : UCD) (st : catalog) (label k : str) :
  drawn_key U st label = Some k →
  unseen st k = true
  ∧ (is_target_item_explicit U label = (true, k)
     ∨ is_target_item_semantic U label = (true, k)).
Proof.
  intros H. split; [exact (drawn_key_unseen U _ _ _ H) |].
  unfold drawn_key in H.
  destruct (is_target_item_explicit U label) as [e ke].
  destruct (is_target_item_semantic U label) as [m km].
  destruct e, (unseen st ke); simpl in H;
    try (injection H as <-; auto);
    destruct m, (unseen st km); simpl in H;
    try discriminate; injection H as <-; auto.
Qed.

Lemma drawn_key_all_seen (U : UCD) (st : catalog) (label : str) :
  (∀ k, is_target_item_explicit U label = (true, k)
        ∨ is_target_item_semantic U label = (true, k) →
        unseen st k = false) →
  drawn_key U st label = None.
Proof.
  intros H. destruct (drawn_key U st label) as [k |] eqn:E; [| reflexivity].
  apply drawn_key_sound in E as [Hnew Hk].
  rewrite (H k Hk) in Hnew. discriminate.
Qed.

Lemma scan_anchors_app (U : UCD) (l1 l2 : list anchor) :
  scan_anchors U (l1 ++ l2)
  = (fold_left (anchor_step U) l2 (scan_state U l1)).1.
Proof. unfold scan_anchors, scan_state. rewrite fold_left_app. reflexivity. Qed.

(** C6, as the code has it.  Both discovery paths return at most one
    anchor for a key.  In the loop over the links, the first label that
    draws a key is recorded for it and stays, and a label that is no
    in-document link or draws no key is ignored; a label draws its
    explicit key when that is unseen, or else its semantic key when
    that is unseen, and nothing when the keys it matches are all seen.
    The loop of the text search goes the same way over the elements
    with a text of at most 200 code points: the first element that
    draws a key is recorded for it, with its id or name or the id made
    up for it as target, and an element that draws no key is
    ignored. *)
Theorem anchor_discovery_one_anchor_per_key (U : UCD) :
  (∀ soup,
     List.NoDup (List.map fst (extract_all_section_anchors U soup).1))
  ∧ (∀ soup,
       List.NoDup (List.map fst (extract_sections_by_text_search U soup).1))
  ∧ (∀ l1 a l2 k,
       eligible a = true →
       drawn_key U (scan_state U l1) (a_text a) = Some k →
       ¬ In k (List.map fst (scan_anchors U l1))
       ∧ ∃ more,
           scan_anchors U (l1 ++ a :: l2)
           = scan_anchors U l1 ++ (k, anchor_target a) :: more)
  ∧ (∀ l1 a l2,
       eligible a = false ∨ drawn_key U (scan_state U l1) (a_text a) = None →
       scan_anchors U (l1 ++ a :: l2) = scan_anchors U (l1 ++ l2))
  ∧ (∀ st label k,
       drawn_key U st label = Some k →
       unseen st k = true
       ∧ (is_target_item_explicit U label = (true, k)
          ∨ is_target_item_semantic U label = (true, k)))
  ∧ (∀ st label,
       (∀ k, is_target_item_explicit U label = (true, k)
             ∨ is_target_item_semantic U label = (true, k) →
             unseen st k = false) →
       drawn_key U st label = None)
  ∧ (∀ st e,
       (text_search_step U st e).1 = st.1
       ∨ ∃ k target,
           drawn_key U st.1 (el_text e) = Some k
           ∧ (text_search_step U st e).1 = record_anchor st.1 k target)
  ∧ (∀ soup,
       (extract_sections_by_text_search U soup).1
       = search_sections U (doc_elements soup))
  ∧ (∀ l1 e l2 k,
       searchable e = true →
       drawn_key U (search_state U l1) (el_text e) = Some k →
       ¬ In k (List.map fst (search_sections U l1))
       ∧ ∃ more,
           search_sections U (l1 ++ e :: l2)
           = search_sections U l1
             ++ (k, (claim_element (search_sections U l1) k e).2) :: more)
  ∧ (∀ l1 e l2,
       searchable e = false
       ∨ drawn_key U (search_state U l1) (el_text e) = None →
       search_sections U (l1 ++ e :: l2) = search_sections U (l1 ++ l2)).
Proof.
  split; [apply extract_all_section_anchors_NoDup |].
  split; [apply extract_sections_by_text_search_NoDup |].
  split; [| split; [| split; [| split; [| split; [| split; [| split]]]]]];
    [| | | | | apply extract_sections_by_text_search_sections
     | intros l1 e l2 k; apply search_sections_records
     | intros l1 e l2; apply search_sections_ignores].
  - intros l1 a l2 k Ha Hk. split.
    + pose proof (drawn_key_unseen U _ _ _ Hk) as Hnew.
      apply negb_true_iff, bool_decide_eq_false in Hnew.
      intros Hin. apply Hnew. apply (scan_state_ok U l1). exact Hin.
    + rewrite scan_anchors_app. simpl.
      rewrite anchor_step_drawn, Ha, Hk.
      destruct (fold_anchor_step_extends U l2
                  (record_anchor (scan_state U l1) k (anchor_target a)))
        as (more & ->).
      exists more. simpl. rewrite <- app_assoc. reflexivity.
  - intros l1 a l2 H. rewrite !scan_anchors_app. simpl.
    rewrite anchor_step_drawn.
    destruct H as [-> | H]; [reflexivity |].
    rewrite H. destruct (eligible a); reflexivity.
  - apply drawn_key_sound.
  - apply drawn_key_all_seen.
  - apply text_search_step_drawn.
Qed.

(** A table of contents in which a sub-heading of item 1 comes before
    the entry of item 1A. *)
Definition toc_with_subheading : document := {|
  doc_anchors :=
    [{| a_href := lit "#i1"; a_text := lit "Item 1. Business" |};
     {| a_href := lit "#rf"; a_text := lit "Item 1. Risk Factors" |};
     {| a_href := lit "#i1a"; a_text := lit "Item 1A. Risk Factors" |}];
  doc_elements := []
|}.

(** Two headings of a document without links: the second has an id of
    its own. *)
Definition two_headings : list element :=
  [{| el_text := lit "Item 1. Business"; el_id := None; el_name := None |};
   {| el_text := lit "Risk Factors"; el_id := Some (lit "rf");
      el_name := None |}].

Lemma anchor_discovery_one_anchor_per_key_witness :
  (¬ In (lit "item_1a")
       (List.map fst
          (scan_anchors ucd_fragment
             [{| a_href := lit "#i1"; a_text := lit "Item 1. Business" |}]))
   ∧ ∃ more,
       scan_anchors ucd_fragment (doc_anchors toc_with_subheading)
       = scan_anchors ucd_fragment
           [{| a_href := lit "#i1"; a_text := lit "Item 1. Business" |}]
         ++ (lit "item_1a", lit "rf") :: more)
  ∧ (¬ In (lit "item_1a")
         (List.map fst
            (search_sections ucd_fragment
               [{| el_text := lit "Item 1. Business"; el_id := None;
                   el_name := None |}]))
     ∧ ∃ more,
         search_sections ucd_fragment two_headings
         = search_sections ucd_fragment
             [{| el_text := lit "Item 1. Business"; el_id := None;
                 el_name := None |}]
           ++ (lit "item_1a", lit "rf") :: more).
Proof.
  split.
  - apply (proj1 (proj2 (proj2
             (anchor_discovery_one_anchor_per_key ucd_fragment)))
             [{| a_href := lit "#i1"; a_text := lit "Item 1. Business" |}]
             {| a_href := lit "#rf"; a_text := lit "Item 1. Risk Factors" |}
             [{| a_href := lit "#i1a";
                 a_text := lit "Item 1A. Risk Factors" |}]
             (lit "item_1a")).
    + reflexivity.
    + vm_compute. reflexivity.
  - apply (proj1 (proj2 (proj2 (proj2 (proj2 (proj2 (proj2 (proj2 (proj2
             (anchor_discovery_one_anchor_per_key ucd_fragment)))))))))
             [{| el_text := lit "Item 1. Business"; el_id := None;
                 el_name := None |}]
             {| el_text := lit "Risk Factors"; el_id := Some (lit "rf");
                el_name := None |}
             []
             (lit "item_1a")).
    + reflexivity.
    + vm_compute. reflexivity.
Defined.

(** On ASCII labels the classifiers do not depend on the table, as
    long as the table agrees with Unicode on Basic Latin. *)
Lemma classifiers_ascii (U V : UCD) (text : str) :
  ascii_compatible U → ascii_compatible V → is_ascii text = true →
  is_target_item_explicit U text = is_target_item_explicit V text
  ∧ is_target_item_semantic U text = is_target_item_semantic V text.
Proof.
  intros HU HV Ht. unfold is_target_item_explicit, is_target_item_semantic.
  rewrite (normalize_anchor_text_ascii U HU text Ht),
    (normalize_anchor_text_ascii V HV text Ht).
  split; reflexivity.
Qed.

Lemma anchor_step_ascii (U V : UCD) (st : catalog) (a : anchor) :
  ascii_compatible U → ascii_compatible V → is_ascii (a_text a) = true →
  anchor_step U st a = anchor_step V st a.
Proof.
  intros HU HV Ha. unfold anchor_step.
  destruct (classifiers_ascii U V (a_text a) HU HV Ha) as [-> ->].
  reflexivity.
Qed.

Lemma fold_anchor_step_ascii (U V : UCD) (l : list anchor) (st : catalog) :
  ascii_compatible U → ascii_compatible V →
  forallb (λ a, is_ascii (a_text a)) l = true →
  fold_left (anchor_step U) l st = fold_left (anchor_step V) l st.
Proof.
  intros HU HV. revert st.
  induction l as [| a l IH]; intros st Hl; simpl; [reflexivity |].
  simpl in Hl. apply andb_true_iff in Hl as [Ha Hl].
  rewrite (anchor_step_ascii U V st a HU HV Ha). apply IH, Hl.
Qed.

Lemma scan_anchors_ascii (U V : UCD) (l : list anchor) :
  ascii_compatible U → ascii_compatible V →
  forallb (λ a, is_ascii (a_text a)) l = true →
  scan_anchors U l = scan_anchors V l.
Proof.
  intros HU HV Hl. unfold scan_anchors.
  rewrite (fold_anchor_step_ascii U V l _ HU HV Hl). reflexivity.
Qed.

(** The catalog of [toc_with_subheading] is the same for every such
    table. *)
Lemma toc_with_subheading_catalog (U : UCD) :
  ascii_compatible U →
  (extract_all_section_anchors U toc_with_subheading).1
  = [(lit "item_1", lit "i1"); (lit "item_1a", lit "rf")]
  ∧ is_target_item_explicit U (lit "Item 1. Risk Factors")
    = (true, lit "item_1")
  ∧ is_target_item_explicit U (lit "Item 1A. Risk Factors")
    = (true, lit "item_1a").
Proof.
  intros HU. unfold extract_all_section_anchors.
  rewrite (scan_anchors_ascii U ucd_fragment
             (doc_anchors toc_with_subheading) HU ucd_fragment_ascii)
    by (vm_compute; reflexivity).
  split; [vm_compute; reflexivity |].
  split.
  - rewrite (proj1 (classifiers_ascii U ucd_fragment
                      (lit "Item 1. Risk Factors") HU ucd_fragment_ascii
                      eq_refl)).
    vm_compute. reflexivity.
  - rewrite (proj1 (classifiers_ascii U ucd_fragment
                      (lit "Item 1A. Risk Factors") HU ucd_fragment_ascii
                      eq_refl)).
    vm_compute. reflexivity.
Qed.

(** C6 as stated fails on that table of contents: the second label
    classifies, by its explicit match, to item_1, a key already seen,
    and is not ignored but recorded for item_1a, the key of its
    semantic match; the third label, the first to classify to item_1a,
    is not the one recorded for it. *)
Lemma anchor_discovery_counterexample :
  (extract_all_section_anchors ucd_fragment toc_with_subheading).1
  = [(lit "item_1", lit "i1"); (lit "item_1a", lit "rf")]
  ∧ is_target_item_explicit ucd_fragment (lit "Item 1. Risk Factors")
    = (true, lit "item_1")
  ∧ is_target_item_explicit ucd_fragment (lit "Item 1A. Risk Factors")
    = (true, lit "item_1a").
Proof. repeat split; vm_compute; reflexivity. Qed.

(** ** Absent sections and boundaries *)

Lemma find_None_iff {A} (p : A → bool) (l : list A) :
  List.find p l = None ↔ ∀ x, In x l → p x = false.
Proof.
  split; [apply find_none |].
  induction l as [| x l IH]; intros H; simpl; [reflexivity |].
  rewrite (H x) by (simpl; auto). apply IH. intros y Hy. apply H. simpl. auto.
Qed.

Section NotFound.
Variable U : UCD.
Context {node : Type}.
Variable soup : Tree node.

(** No candidate carries the identifier in the attribute, whatever the
    case of the letters. *)
Definition no_match (candidates : list node) (attr target_id : str) : Prop :=
  ∀ el, In el candidates →
    lower U (default [] (node_get soup el attr)) ≠ lower U target_id.

Lemma find_ignoring_case_None (candidates : list node) (attr target_id : str) :
  find_ignoring_case U soup candidates attr target_id = None ↔
  no_match candidates attr target_id.
Proof.
  unfold find_ignoring_case, no_match. rewrite find_None_iff.
  split; intros H el Hel; specialize (H el Hel).
  - apply bool_decide_eq_false in H. exact H.
  - apply bool_decide_eq_false. exact H.
Qed.

(** The identifier resolves to no node under any of the lookups. *)
Definition unresolved (target_id : str) : Prop :=
  soup_find soup (lit "id") target_id = None
  ∧ no_match (soup_find_all soup (lit "id")) (lit "id") target_id
  ∧ soup_find_a soup (lit "name") target_id = None
  ∧ no_match (soup_find_all_a soup (lit "name")) (lit "name") target_id
  ∧ soup_find soup (lit "name") target_id = None
  ∧ no_match (soup_find_all soup (lit "name")) (lit "name") target_id.

Lemma or_else_None (a b : option node) :
  or_else a b = None ↔ a = None ∧ b = None.
Proof.
  destruct a, b; simpl; split; intros H;
    try discriminate H; try (destruct H; discriminate); auto.
Qed.

Lemma find_target_None (target_id : str) :
  find_target U soup target_id = None ↔ unresolved target_id.
Proof.
  unfold find_target, unresolved.
  rewrite !or_else_None, !find_ignoring_case_None. tauto.
Qed.

End NotFound.

(** *** The boundary resolver and the digit limit of [int] *)

(** The number of the key, when it has one, is within the digit limit
    of [int]. *)
Definition within_limit (item_name : str) : bool :=
  match re_match_item_key item_name with
  | Some (num, _) => len num <=? int_max_str_digits
  | None => true
  end.

Lemma get_item_sort_key_checked_spec (item_name : str) :
  get_item_sort_key_checked item_name
  = if within_limit item_name then Returns (get_item_sort_key item_name)
    else ValueError.
Proof.
  unfold get_item_sort_key_checked, within_limit, get_item_sort_key,
    int_checked.
  destruct (re_match_item_key item_name) as [[num letter] |]; [| reflexivity].
  destruct (N.ltb_spec int_max_str_digits (len num)) as [H | H];
    destruct (N.leb_spec (len num) int_max_str_digits) as [H' | H'];
    try lia; reflexivity.
Qed.

Lemma keyed_sections_spec (all_sections : list (str * str)) :
  mapM (λ s : str * str,
          section_sort_key ← get_item_sort_key_checked s.1;
          mret (s.1, s.2, section_sort_key))
    all_sections
  = if forallb (λ s, within_limit s.1) all_sections
    then Returns (List.map (λ s, (s.1, s.2, get_item_sort_key s.1))
                    all_sections)
    else ValueError.
Proof.
  induction all_sections as [| s l IH]; [reflexivity |].
  cbn [mapM forallb List.map]. rewrite IH, get_item_sort_key_checked_spec.
  destruct (within_limit s.1); [| reflexivity].
  destruct (forallb _ l); reflexivity.
Qed.

(** The call returns exactly when every key it reads is within the
    limit, and then it returns what [find_next_available_section]
    says. *)
Lemma find_next_available_section_checked_spec
    (all_sections : list (str * str)) (current_section : str) :
  find_next_available_section_checked all_sections current_section
  = if within_limit current_section
       && forallb (λ s, within_limit s.1) all_sections
    then Returns (find_next_available_section all_sections current_section)
    else ValueError.
Proof.
  unfold find_next_available_section_checked.
  rewrite get_item_sort_key_checked_spec, keyed_sections_spec.
  destruct (within_limit current_section); [| reflexivity].
  destruct (forallb _ all_sections); reflexivity.
Qed.

(** C9, as the code has it.  An identifier that resolves to no node
    under any of the lookups makes the content extractor return the
    empty string.  A catalog with no key after the target makes the
    boundary resolver return none when the number of the target key and
    of every key of the catalog has at most 4300 digits; the resolver
    raises [ValueError] exactly when one of these numbers has more
    digits, whether or not a key is after the target; and whenever it
    returns, it returns the boundary [find_next_available_section]
    gives. *)
Theorem not_found_is_empty (U : UCD) {node : Type} (soup : Tree node) :
  (∀ target_id next_target_id,
     unresolved U soup target_id →
     find_section_content_advanced U soup target_id next_target_id = [])
  ∧ (∀ all_sections current_section,
       within_limit current_section = true →
       (∀ x, In x all_sections → within_limit x.1 = true) →
       (∀ x, In x all_sections →
             sorts_before current_section x.1 = false) →
       find_next_available_section_checked all_sections current_section
       = Returns None)
  ∧ (∀ all_sections current_section,
       find_next_available_section_checked all_sections current_section
       = ValueError ↔
       within_limit current_section = false
       ∨ ∃ x, In x all_sections ∧ within_limit x.1 = false)
  ∧ (∀ all_sections current_section boundary,
       find_next_available_section_checked all_sections current_section
       = Returns boundary →
       boundary = find_next_available_section all_sections current_section).
Proof.
  split; [| split; [| split]].
  - intros target_id next_target_id H.
    apply find_target_None in H.
    unfold find_section_content_advanced. rewrite H. reflexivity.
  - intros all_sections current_section Hc Hall H.
    rewrite find_next_available_section_checked_spec, Hc.
    rewrite (proj2 (forallb_forall _ all_sections))
      by (intros x Hx; apply Hall, Hx).
    cbn [andb]. f_equal.
    rewrite find_next_available_section_first_min.
    rewrite (proj2 (filter_nil_iff _ _) H). reflexivity.
  - intros all_sections current_section.
    rewrite find_next_available_section_checked_spec.
    destruct (within_limit current_section) eqn:Hc; cbn [andb].
    + destruct (forallb (λ s, within_limit s.1) all_sections) eqn:Hall.
      * split; [discriminate |].
        intros [H | (x & Hx & H)]; [discriminate |].
        rewrite (proj1 (forallb_forall _ all_sections) Hall x Hx) in H.
        discriminate.
      * split; [| reflexivity]. intros _. right.
        apply not_true_iff_false in Hall.
        destruct (existsb (λ s, negb (within_limit s.1)) all_sections)
          eqn:Hex.
        -- apply existsb_exists in Hex as (x & Hx & H).
           exists x. split; [exact Hx |]. apply negb_true_iff, H.
        -- exfalso. apply Hall, forallb_forall. intros x Hx.
           destruct (within_limit x.1) eqn:E; [reflexivity |].
           assert (existsb (λ s, negb (within_limit s.1)) all_sections = true)
             by (apply existsb_exists; exists x; rewrite E; auto).
           congruence.
    + split; [auto | reflexivity].
  - intros all_sections current_section boundary.
    rewrite find_next_available_section_checked_spec.
    destruct (_ && _); [| discriminate]. intros [= <-]. reflexivity.
Qed.

(** A heading with the id [part1] followed by one paragraph. *)
Definition heading_and_paragraph : Tree nat := {|
  soup_find attr value :=
    if bool_decide (attr = lit "id") && bool_decide (value = lit "part1")
    then Some 0%nat else None;
  soup_find_all attr := if bool_decide (attr = lit "id") then [0%nat] else [];
  soup_find_a attr value := None;
  soup_find_all_a attr := [];
  node_get el attr :=
    if Nat.eqb el 0 && bool_decide (attr = lit "id")
    then Some (lit "part1") else None;
  node_name el := if Nat.eqb el 0 then lit "h2" else lit "p";
  node_text el :=
    if Nat.eqb el 0 then lit "Part I"
    else lit "We make and sell software.";
  node_text_joined el :=
    if Nat.eqb el 0 then lit "Part I"
    else lit "We make and sell software.";
  node_parent el := None;
  next_siblings el := if Nat.eqb el 0 then [1%nat] else [];
  node_eqb := Nat.eqb
|}.

Lemma not_found_is_empty_witness :
  find_section_content_advanced ucd_fragment heading_and_paragraph
    (lit "part2") None = []
  ∧ find_next_available_section_checked three_anchors (lit "item_7")
    = Returns None.
Proof.
  split.
  - apply (proj1 (not_found_is_empty ucd_fragment heading_and_paragraph)).
    unfold unresolved, no_match. simpl.
    repeat split; intros el Hel; try contradiction.
    destruct Hel as [<- | []]. vm_compute. discriminate.
  - apply (proj1 (proj2
             (not_found_is_empty ucd_fragment heading_and_paragraph))).
    + reflexivity.
    + intros x Hx. simpl in Hx.
      repeat (destruct Hx as [<- | Hx]; [reflexivity |]). destruct Hx.
    + intros x Hx. simpl in Hx.
      repeat (destruct Hx as [<- | Hx]; [reflexivity |]). destruct Hx.
Defined.

(** A key whose number has 4301 digits. *)
Definition long_key : str := lit "item_" ++ repeat 57 4301%nat.

(** C9 as stated fails on that key: the catalog is empty, so no key is
    after the target, and the resolver does not return none but raises,
    as [int] refuses the 4301 digits. *)
Lemma not_found_counterexample :
  (∀ x : str * str, In x [] → sorts_before long_key x.1 = false)
  ∧ find_next_available_section_checked [] long_key = ValueError.
Proof.
  split; [intros x [] |]. vm_compute. reflexivity.
Qed.

(** The same tree with an identifier that resolves: the paragraph is
    the content, also when the identifier differs in case. *)
Example find_section_content_advanced_found :
  find_section_content_advanced ucd_fragment heading_and_paragraph
    (lit "part1") None = lit "We make and sell software."
  ∧ find_section_content_advanced ucd_fragment heading_and_paragraph
      (lit "PART1") None = lit "We make and sell software.".
Proof. split; vm_compute; reflexivity. Qed.

(** ** Pattern fallback: a header at offset 0 *)

(** The start the specification speaks of: the first match, in the order of the
    patterns and of the matches of each, whose context looks like a
    header. *)
Definition first_accepted (re : Regex) (all_text : str) (pats : list str)
    : option N :=
  scan_matches re all_text
    (flat_map (λ pattern, re_finditer re pattern all_text) pats) None.

Definition all_patterns : list str :=
  flat_map (λ entry, patterns entry.2) section_mapping.

Lemma scan_patterns_no_match (re : Regex) (all_text : str) (pats : list str)
    (start_pos : option N) :
  (∀ p, In p pats → re_finditer re p all_text = []) →
  pos_truthy start_pos = false →
  scan_patterns re all_text pats start_pos = start_pos.
Proof.
  intros Hnone Hfalse. induction pats as [| p pats IH]; [reflexivity |].
  simpl. rewrite (Hnone p) by (simpl; auto). simpl. rewrite Hfalse.
  apply IH. intros q Hq. apply Hnone. simpl. auto.
Qed.

Lemma scan_matches_accept (re : Regex) (all_text : str) (m_start m_end : N)
    (rest : list (N * N)) (start_pos : option N) :
  re_search re (lit "item\s*\d+[a-c]?\s*\.")
    (slice all_text (N.max 0 (m_start - 100))
       (N.min (len all_text) (m_end + 100))) = true →
  scan_matches re all_text ((m_start, m_end) :: rest) start_pos
  = Some m_start.
Proof.
  intros H. simpl. unfold _is_section_header, header_indicators.
  simpl existsb. rewrite H. reflexivity.
Qed.

(** The flattened text of a document that begins with the header of
    item 1. *)
Definition header_first : str := lit "Item 1. Our business".

Section HeaderAtOffsetZero.
Variable re : Regex.

(** What the [re] library finds in that text: "Item 1" at 0 to 6 for
    the first pattern of item_1, "business" at 12 to 20 for its
    second, nothing for any other pattern of the table; and the first
    header indicator matches the text. *)
Hypothesis Hitem :
  re_finditer re (lit "item\s*1\b(?!\s*[a-c])") header_first = [(0, 6)].
Hypothesis Hbusiness :
  re_finditer re (lit "business\s*$") header_first = [(12, 20)].
Hypothesis Hothers :
  ∀ p, In p all_patterns →
    p ≠ lit "item\s*1\b(?!\s*[a-c])" → p ≠ lit "business\s*$" →
    re_finditer re p header_first = [].
Hypothesis Hheader :
  re_search re (lit "item\s*\d+[a-c]?\s*\.") header_first = true.

Lemma header_first_item_1 :
  scan_patterns re header_first
    [lit "item\s*1\b(?!\s*[a-c])"; lit "business\s*$";
     lit "item\s*1\s*\.\s*business"] None = Some 12.
Proof.
  cbn [scan_patterns]. rewrite Hitem.
  rewrite scan_matches_accept by exact Hheader.
  cbn [pos_truthy N.eqb negb]. rewrite Hbusiness.
  rewrite scan_matches_accept by exact Hheader.
  reflexivity.
Qed.

Lemma header_first_other (pats : list str) :
  (∀ p, In p pats →
        In p all_patterns
        ∧ p ≠ lit "item\s*1\b(?!\s*[a-c])" ∧ p ≠ lit "business\s*$") →
  scan_patterns re header_first pats None = None.
Proof.
  intros H. apply scan_patterns_no_match; [| reflexivity].
  intros p Hp. destruct (H p Hp) as (H1 & H2 & H3). apply Hothers; assumption.
Qed.

(** C8, at a text that begins with the header of item 1.  The first
    accepted match of item_1 is the one at offset 0, but the offset 0
    counts as no start: the loop goes on to the second pattern and
    records the offset 12. *)
Theorem find_section_boundaries_skips_offset_zero :
  first_accepted re header_first
    [lit "item\s*1\b(?!\s*[a-c])"; lit "business\s*$";
     lit "item\s*1\s*\.\s*business"] = Some 0
  ∧ find_section_boundaries re header_first
    = {[ lit "item_1" := (12, 20) ]}.
Proof.
  split.
  - unfold first_accepted. cbn [flat_map]. rewrite Hitem. simpl app.
    apply scan_matches_accept. exact Hheader.
  - unfold find_section_boundaries.
    assert (Hstarts : section_starts re header_first section_mapping
                      = [(lit "item_1", 12)]).
    { unfold section_mapping. cbn [section_starts patterns].
      rewrite header_first_item_1. cbn [pos_truthy N.eqb negb].
      rewrite !header_first_other; [reflexivity | ..];
        intros p Hp; simpl in Hp;
        repeat (destruct Hp as [<- | Hp];
                [split; [vm_compute; tauto | split; discriminate] |]);
        destruct Hp. }
    rewrite Hstarts. reflexivity.
Qed.

End HeaderAtOffsetZero.

(** A stand-in for the [re] library that answers on [header_first] as
    the library does: the two matches above, and the first header
    indicator found. *)
Definition scripted_regex : Regex := {|
  re_finditer pattern text :=
    if bool_decide (pattern = lit "item\s*1\b(?!\s*[a-c])") then [(0, 6)]
    else if bool_decide (pattern = lit "business\s*$") then [(12, 20)]
    else [];
  re_search pattern text :=
    bool_decide (pattern = lit "item\s*\d+[a-c]?\s*\.")
|}.

Lemma find_section_boundaries_skips_offset_zero_witness :
  first_accepted scripted_regex header_first
    [lit "item\s*1\b(?!\s*[a-c])"; lit "business\s*$";
     lit "item\s*1\s*\.\s*business"] = Some 0
  ∧ find_section_boundaries scripted_regex header_first
    = {[ lit "item_1" := (12, 20) ]}.
Proof.
  apply (find_section_boundaries_skips_offset_zero scripted_regex).
  - reflexivity.
  - reflexivity.
  - intros p _ H1 H2. simpl.
    rewrite (bool_decide_eq_false_2 _ H1), (bool_decide_eq_false_2 _ H2).
    reflexivity.
  - reflexivity.
Defined.

(** * The rest of the code *)

(** ** Sorting and the catalog *)

(** No element has a key below the key of an element before it. *)
Fixpoint sorted_by {A} (key : A → N * str) (l : list A) : Prop :=
  match l with
  | [] => True
  | x :: r =>
      (∀ y, In y r → tuple_ltb (key y) (key x) = false) ∧ sorted_by key r
  end.

Lemma insert_by_In {A} (key : A → N * str) (x y : A) (l : list A) :
  In y (insert_by key x l) ↔ y = x ∨ In y l.
Proof.
  induction l as [| z l IH]; simpl; [intuition auto |].
  destruct (tuple_ltb _ _); simpl; [rewrite IH |]; intuition auto.
Qed.

Lemma insert_by_sorted {A} (key : A → N * str) (x : A) (l : list A) :
  sorted_by key l → sorted_by key (insert_by key x l).
Proof.
  induction l as [| z l IH]; simpl; [intros _; split; [intros y [] | exact I] |].
  intros [Hz Hl]. destruct (tuple_ltb (key z) (key x)) eqn:E; simpl.
  - split; [| exact (IH Hl)].
    intros y Hy. apply insert_by_In in Hy as [-> | Hy]; [| exact (Hz y Hy)].
    apply tuple_ltb_asym, E.
  - split; [| split; assumption].
    intros y [<- | Hy]; [exact E |].
    apply not_true_is_false. intros Hyx.
    destruct (tuple_ltb_total (key z) (key y)) as [H | [H | H]].
    + pose proof (tuple_ltb_trans _ _ _ H Hyx). congruence.
    + rewrite <- H in Hyx. congruence.
    + rewrite (Hz y Hy) in H. discriminate.
Qed.

Lemma sort_by_sorted {A} (key : A → N * str) (l : list A) :
  sorted_by key (sort_by key l).
Proof.
  unfold sort_by. induction l as [| x l IH]; simpl; [exact I |].
  apply insert_by_sorted, IH.
Qed.

(** The elements of one key keep their order. *)
Lemma insert_by_stable {A} (key : A → N * str) (k : N * str) (x : A)
    (l : list A) :
  sorted_by key l →
  List.filter (λ y, bool_decide (key y = k)) (insert_by key x l)
  = List.filter (λ y, bool_decide (key y = k)) (x :: l).
Proof.
  induction l as [| z l IH]; [reflexivity |].
  intros [Hz Hl]. simpl. destruct (tuple_ltb (key z) (key x)) eqn:E;
    [| reflexivity].
  simpl. rewrite (IH Hl). simpl.
  destruct (bool_decide (key x = k)) eqn:Hx; [| reflexivity].
  destruct (bool_decide (key z = k)) eqn:Hzk; [| reflexivity].
  apply bool_decide_eq_true in Hx, Hzk. rewrite Hx, Hzk in E.
  rewrite tuple_ltb_irrefl in E. discriminate.
Qed.

Lemma sort_by_stable {A} (key : A → N * str) (k : N * str) (l : list A) :
  List.filter (λ y, bool_decide (key y = k)) (sort_by key l)
  = List.filter (λ y, bool_decide (key y = k)) l.
Proof.
  induction l as [| x l IH]; [reflexivity |].
  change (sort_by key (x :: l)) with (insert_by key x (sort_by key l)).
  rewrite insert_by_stable by apply sort_by_sorted.
  simpl. rewrite IH. reflexivity.
Qed.

Lemma sorted_by_first_min {A} (key : A → N * str) (l : list A) :
  sorted_by key l → first_min key l = head l.
Proof.
  destruct l as [| x r]; [reflexivity |]. intros [Hx _].
  apply (first_min_intro key [] r x); [intros y [] | exact Hx].
Qed.



Lemma extract_all_is_sorted_targets (U : UCD) (soup : document) :
  extract_all_section_anchors U soup
  = (sort_by (λ x, get_item_sort_key x.1) (extract_target_anchors U soup).1,
     (extract_target_anchors U soup).2).
Proof.
  unfold extract_all_section_anchors, extract_target_anchors.
  destruct (scan_anchors U (doc_anchors soup)) as [| x l]; [| reflexivity].
  destruct (extract_sections_by_text_search U soup). reflexivity.
Qed.

(** X1.  The catalog discovery returns holds the anchors that
    [extract_target_anchors] finds, each as often, in canonical order;
    anchors whose keys sort alike keep the order of their discovery. *)
Theorem extract_all_section_anchors_sorted (U : UCD) (soup : document) :
  sorted_by (λ x, get_item_sort_key x.1)
    (extract_all_section_anchors U soup).1
  ∧ Permutation (extract_all_section_anchors U soup).1
      (extract_target_anchors U soup).1
  ∧ ∀ k,
      List.filter (λ x, bool_decide (get_item_sort_key x.1 = k))
        (extract_all_section_anchors U soup).1
      = List.filter (λ x, bool_decide (get_item_sort_key x.1 = k))
          (extract_target_anchors U soup).1.
Proof.
  rewrite extract_all_is_sorted_targets. simpl.
  split; [apply sort_by_sorted |].
  split; [apply sort_by_Permutation |].
  intros k. apply (sort_by_stable (λ x : str * str, get_item_sort_key x.1)).
Qed.



(** ** The shape of normalized text *)

Lemma strip_class_In (f : N → bool) (s : str) (x : N) :
  In x (strip_class f s) → In x s.
Proof.
  destruct (strip_class_split f s) as (a & b & Heq & _). intros H.
  rewrite Heq. apply in_or_app. right. apply in_or_app. left. exact H.
Qed.

(** X3.  Normalized text holds word characters and single spaces only:
    every code point is the space or a word character that is no
    whitespace, no two spaces are adjacent, and the text neither begins
    nor ends with a space. *)
Theorem normalize_anchor_text_shape (U : UCD) (text : str) :
  (∀ x, In x (normalize_anchor_text U text) →
        x = 32 ∨ (isspace x = false ∧ is_word U x = true))
  ∧ collapsed false (normalize_anchor_text U text) = true
  ∧ head_outside isspace (normalize_anchor_text U text)
  ∧ head_outside isspace (rev (normalize_anchor_text U text)).
Proof.
  unfold normalize_anchor_text, strip.
  set (u := collapse_whitespace
              (remove_punctuation U (lower U (replace_nbsp (nfkd U text))))).
  destruct (strip_class_split isspace u) as (a & b & Heq & Hhead & Hlast).
  split; [| split; [| split; assumption]].
  - intros x Hx. apply strip_class_In in Hx.
    apply collapse_from_In in Hx as [-> | [Hin Hns]]; [auto |].
    right. split; [exact Hns |].
    apply filter_In in Hin as [_ Hkeep].
    rewrite Hns, orb_false_r in Hkeep. exact Hkeep.
  - assert (H : collapsed false u = true)
      by (subst u; apply collapse_from_collapsed).
    rewrite Heq in H.
    apply collapsed_suffix in H. apply collapsed_prefix in H. exact H.
Qed.

(** ** The semantic classifier *)

Lemma contains_In (sub s : str) (c : N) :
  contains sub s = true → In c sub → In c s.
Proof.
  induction s as [| x s IH]; simpl.
  - rewrite orb_false_r. unfold startswith.
    destruct (strip_prefix sub []) as [r |] eqn:E; [| discriminate].
    apply strip_prefix_Some in E. destruct sub; [tauto | discriminate].
  - rewrite orb_true_iff. intros [H | H] Hc; [| right; exact (IH H Hc)].
    unfold startswith in H.
    destruct (strip_prefix sub (x :: s)) as [r |] eqn:E; [| discriminate].
    apply strip_prefix_Some in E. change (In c (x :: s)).
    rewrite E. apply in_or_app. auto.
Qed.

(** Some phrase of the entry occurs in the text. *)
Definition entry_matches (normalized : str) (entry : str * list str) : bool :=
  existsb (λ variation, contains variation normalized) entry.2.

(** X4.  The semantic classifier answers true exactly when a phrase of
    the synonym table occurs in the normalized label, and then with
    the key of the first entry of the table that has such a phrase,
    always a key of the table; otherwise it answers (false, ""). *)
Theorem is_target_item_semantic_spec (U : UCD) (text : str) :
  (∀ key,
     is_target_item_semantic U text = (true, key) ↔
     ∃ before variations after,
       SECTION_MAPPINGS = before ++ (key, variations) :: after
       ∧ (∃ variation,
            In variation variations
            ∧ contains variation (normalize_anchor_text U text) = true)
       ∧ ∀ entry variation,
           In entry before → In variation entry.2 →
           contains variation (normalize_anchor_text U text) = false)
  ∧ (is_target_item_semantic U text = (false, []) ↔
     ∀ entry variation,
       In entry SECTION_MAPPINGS → In variation entry.2 →
       contains variation (normalize_anchor_text U text) = false)
  ∧ (∀ key,
       is_target_item_semantic U text = (true, key) →
       In key (List.map fst SECTION_MAPPINGS)).
Proof.
  unfold is_target_item_semantic.
  set (normalized := normalize_anchor_text U text).
  fold (entry_matches normalized).
  assert (Hfind : ∀ l entry,
            List.find (entry_matches normalized) l = Some entry ↔
            ∃ before after,
              l = before ++ entry :: after
              ∧ entry_matches normalized entry = true
              ∧ ∀ e, In e before → entry_matches normalized e = false).
  { induction l as [| e l IH]; intros entry; simpl.
    - split; [discriminate |]. intros (before & after & H & _).
      destruct before; discriminate.
    - destruct (entry_matches normalized e) eqn:E.
      + split.
        * intros [= <-]. exists [], l. split; [reflexivity |].
          split; [exact E | intros ? []].
        * intros ([| b before] & after & Heq & Hm & Hb).
          -- injection Heq as <- _. reflexivity.
          -- injection Heq as <- _. rewrite (Hb e) in E by (simpl; auto).
             discriminate.
      + rewrite IH. split.
        * intros (before & after & -> & Hm & Hb).
          exists (e :: before), after. split; [reflexivity |].
          split; [exact Hm |]. intros e' [<- | He']; auto.
        * intros ([| b before] & after & Heq & Hm & Hb).
          -- injection Heq as <- _. congruence.
          -- injection Heq as <- ->. exists before, after.
             split; [reflexivity |]. split; [exact Hm |].
             intros e' He'. apply Hb. simpl. auto. }
  assert (Hnone : ∀ e,
            entry_matches normalized e = false ↔
            ∀ variation, In variation e.2 →
                         contains variation normalized = false).
  { intros e. unfold entry_matches. split.
    - intros H variation Hv.
      destruct (contains variation normalized) eqn:E; [| reflexivity].
      assert (existsb (λ v, contains v normalized) e.2 = true)
        by (apply existsb_exists; eauto).
      congruence.
    - intros H. apply not_true_is_false. intros Ht.
      apply existsb_exists in Ht as (v & Hv & Hc).
      rewrite (H v Hv) in Hc. discriminate. }
  split; [| split].
  - intros key.
    destruct (List.find (entry_matches normalized) SECTION_MAPPINGS)
      as [[k vs] |] eqn:E.
    + split.
      * intros [= <-]. apply Hfind in E as (before & after & Heq & Hm & Hb).
        exists before, vs, after. split; [exact Heq |]. split.
        -- unfold entry_matches in Hm. apply existsb_exists in Hm. exact Hm.
        -- intros entry variation He Hv. apply (Hnone entry); auto.
      * intros (before & variations & after & Heq & (v & Hv & Hc) & Hb).
        assert (Hsome : List.find (entry_matches normalized) SECTION_MAPPINGS
                        = Some (key, variations)).
        { apply Hfind. exists before, after. split; [exact Heq |]. split.
          - unfold entry_matches. apply existsb_exists. eauto.
          - intros e He. apply Hnone. intros variation Hvar. eauto. }
        rewrite E in Hsome. injection Hsome as -> _. reflexivity.
    + split; [discriminate |].
      intros (before & variations & after & Heq & (v & Hv & Hc) & Hb).
      assert (Hm : entry_matches normalized (key, variations) = false).
      { apply (find_none _ _ E). rewrite Heq. apply in_or_app. simpl. auto. }
      rewrite (proj1 (Hnone _) Hm v Hv) in Hc. discriminate.
  - destruct (List.find (entry_matches normalized) SECTION_MAPPINGS)
      as [[k vs] |] eqn:E.
    + split; [discriminate |]. intros H.
      apply find_some in E as [Hin Hm].
      rewrite (proj2 (Hnone (k, vs)) (λ v, H (k, vs) v Hin)) in Hm.
      discriminate.
    + split; [| reflexivity]. intros _ entry variation He Hv.
      apply (Hnone entry); [| exact Hv]. exact (find_none _ _ E entry He).
  - intros key.
    destruct (List.find (entry_matches normalized) SECTION_MAPPINGS)
      as [[k vs] |] eqn:E; [| discriminate].
    intros [= <-]. apply find_some in E as [Hin _].
    apply (in_map fst) in Hin. exact Hin.
Qed.

(** X5.  A phrase with a code point that is neither a word character
    nor the space never occurs in a normalized label.  With the ASCII
    classes, three phrases of the table of item_7 are such, by their
    ampersand or apostrophe, and match no label. *)
Theorem punctuated_phrases_never_match (U : UCD) :
  (∀ text variation c,
     In c variation → is_word U c = false → c ≠ 32 →
     contains variation (normalize_anchor_text U text) = false)
  ∧ (ascii_compatible U →
     ∀ text variation,
       In variation
         [lit "management's discussion and analysis"; lit "md&a";
          lit "management's discussion"] →
       contains variation (normalize_anchor_text U text) = false).
Proof.
  assert (H : ∀ text variation c,
            In c variation → is_word U c = false → c ≠ 32 →
            contains variation (normalize_anchor_text U text) = false).
  { intros text variation c Hc Hword Hsp.
    apply not_true_is_false. intros Hcont.
    pose proof (contains_In _ _ c Hcont Hc) as Hin.
    apply (proj1 (normalize_anchor_text_shape U text)) in Hin
      as [-> | [_ Hw]]; congruence. }
  split; [exact H |].
  intros HU text variation Hv.
  assert (H38 : is_word U 38 = false).
  { unfold is_word. destruct (HU 38) as (_ & _ & _ & ->); [lia |].
    reflexivity. }
  assert (H39 : is_word U 39 = false).
  { unfold is_word. destruct (HU 39) as (_ & _ & _ & ->); [lia |].
    reflexivity. }
  destruct Hv as [<- | [<- | [<- | []]]].
  - apply (H text _ 39); [vm_compute; tauto | exact H39 | discriminate].
  - apply (H text _ 38); [vm_compute; tauto | exact H38 | discriminate].
  - apply (H text _ 39); [vm_compute; tauto | exact H39 | discriminate].
Qed.

Lemma punctuated_phrases_never_match_witness :
  contains (lit "md&a")
    (normalize_anchor_text ucd_fragment (lit "Item 7. MD&A")) = false.
Proof.
  apply (proj2 (punctuated_phrases_never_match ucd_fragment)
           ucd_fragment_ascii (lit "Item 7. MD&A") (lit "md&a")).
  simpl. auto.
Defined.

(** ** The text search and the document *)

Section TextSearchProperties.
Variable U : UCD.

(** What the search does with one element: the catalog and the
    element after it. *)
Definition search_element (cat : catalog) (e : element) : catalog * element :=
  if negb (truthy (el_text e)) || (200 <? len (el_text e)) then (cat, e)
  else
    match drawn_key U cat (el_text e) with
    | Some k =>
        (record_anchor cat k (claim_element cat.1 k e).2,
         (claim_element cat.1 k e).1)
    | None => (cat, e)
    end.

Fixpoint search_all (cat : catalog) (l : list element)
    : catalog * list element :=
  match l with
  | [] => (cat, [])
  | e :: r =>
      let found := search_all (search_element cat e).1 r in
      (found.1, (search_element cat e).2 :: found.2)
  end.

Lemma text_search_step_element (st : catalog * list element) (e : element) :
  text_search_step U st e
  = ((search_element st.1 e).1, st.2 ++ [(search_element st.1 e).2]).
Proof.
  destruct st as [cat visited].
  unfold text_search_step, search_element, drawn_key. simpl.
  destruct (negb (truthy (el_text e)) || (200 <? len (el_text e)));
    [reflexivity |].
  destruct (is_target_item_explicit U (el_text e)) as [x kx].
  destruct (is_target_item_semantic U (el_text e)) as [m km].
  destruct (x && unseen cat kx).
  - destruct (claim_element cat.1 kx e). reflexivity.
  - destruct (m && unseen cat km); [| reflexivity].
    destruct (claim_element cat.1 km e). reflexivity.
Qed.

Lemma fold_text_search (l : list element) (cat : catalog)
    (visited : list element) :
  fold_left (text_search_step U) l (cat, visited)
  = ((search_all cat l).1, visited ++ (search_all cat l).2).
Proof.
  revert cat visited. induction l as [| e l IH]; intros cat visited.
  - simpl. rewrite app_nil_r. reflexivity.
  - cbn [fold_left search_all]. rewrite text_search_step_element.
    cbn [fst snd]. rewrite IH. rewrite <- app_assoc. reflexivity.
Qed.

Lemma extract_sections_by_text_search_all (soup : document) :
  extract_sections_by_text_search U soup
  = ((search_all ([], ∅) (doc_elements soup)).1.1,
     {| doc_anchors := doc_anchors soup;
        doc_elements := (search_all ([], ∅) (doc_elements soup)).2 |}).
Proof.
  unfold extract_sections_by_text_search. rewrite fold_text_search.
  reflexivity.
Qed.

(** The identifier the search makes up for the [n]-th section. *)
Definition synthesized_id (item_key : str) (n : N) : str :=
  lit "section_" ++ item_key ++ lit "_" ++ str_of_int n.

(** What the search may do to an element: nothing, or give it the id
    it made up when the element had neither an id nor a name. *)
Definition search_leaves (e e' : element) : Prop :=
  el_text e' = el_text e
  ∧ el_name e' = el_name e
  ∧ (e' = e
     ∨ (attr_truthy (el_id e) = false ∧ attr_truthy (el_name e) = false
        ∧ ∃ item_key n, el_id e' = Some (synthesized_id item_key n))).

(** The target identifies the element: it is not empty and is the
    element's id or name. *)
Definition identifies (target : str) (e : element) : Prop :=
  truthy target = true ∧ (el_id e = Some target ∨ el_name e = Some target).

Lemma synthesized_id_truthy (item_key : str) (n : N) :
  truthy (synthesized_id item_key n) = true.
Proof. reflexivity. Qed.

Lemma claim_element_unfold (found : list (str * str)) (k : str) (e : element) :
  claim_element found k e =
  if negb (attr_truthy (el_id e)) && negb (attr_truthy (el_name e))
  then ({| el_text := el_text e;
           el_id := Some (synthesized_id k (len found));
           el_name := el_name e |}, synthesized_id k (len found))
  else (e, default [] (attr_or (el_id e) (el_name e))).
Proof. reflexivity. Qed.

Lemma attr_truthy_Some (a : option str) :
  attr_truthy a = true → ∃ s, a = Some s ∧ truthy s = true.
Proof. destruct a as [s |]; simpl; [eauto | discriminate]. Qed.

Lemma claim_element_spec (found : list (str * str)) (k : str) (e : element) :
  search_leaves e (claim_element found k e).1
  ∧ identifies (claim_element found k e).2 (claim_element found k e).1
  ∧ claim_element found k (claim_element found k e).1
    = claim_element found k e.
Proof.
  set (sid := synthesized_id k (len found)).
  assert (Hsid : truthy sid = true) by apply synthesized_id_truthy.
  unfold search_leaves, identifies.
  destruct (attr_truthy (el_id e)) eqn:Ti;
    [| destruct (attr_truthy (el_name e)) eqn:Tn].
  - assert (Hc : claim_element found k e
                 = (e, default [] (attr_or (el_id e) (el_name e))))
      by (rewrite claim_element_unfold, Ti; reflexivity).
    rewrite Hc. cbn [fst snd]. rewrite Hc.
    unfold attr_or. rewrite Ti.
    apply attr_truthy_Some in Ti as (i & Hi & Hti). rewrite Hi. simpl.
    auto 6.
  - assert (Hc : claim_element found k e
                 = (e, default [] (attr_or (el_id e) (el_name e))))
      by (rewrite claim_element_unfold, Ti, Tn; reflexivity).
    rewrite Hc. cbn [fst snd]. rewrite Hc.
    unfold attr_or. rewrite Ti.
    apply attr_truthy_Some in Tn as (n & Hn & Htn). rewrite Hn. simpl.
    auto 6.
  - assert (Hc : claim_element found k e
                 = ({| el_text := el_text e; el_id := Some sid;
                       el_name := el_name e |}, sid))
      by (rewrite claim_element_unfold, Ti, Tn; reflexivity).
    rewrite Hc. cbn [fst snd el_text el_id el_name].
    rewrite claim_element_unfold. cbn [el_text el_id el_name attr_truthy].
    rewrite Hsid. cbn [negb andb].
    unfold attr_or. cbn [attr_truthy]. rewrite Hsid. cbn [default].
    split; [| auto].
    split; [reflexivity |]. split; [reflexivity |].
    right. split; [reflexivity |]. split; [reflexivity |].
    exists k, (len found). reflexivity.
Qed.

Lemma search_element_spec (cat : catalog) (e : element) :
  search_leaves e (search_element cat e).2
  ∧ search_element cat (search_element cat e).2 = search_element cat e
  ∧ ((search_element cat e).1 = cat
     ∨ ∃ k target,
         (search_element cat e).1 = record_anchor cat k target
         ∧ identifies target (search_element cat e).2).
Proof.
  assert (Hsame : search_leaves e e) by (repeat split; auto).
  unfold search_element.
  destruct (negb (truthy (el_text e)) || (200 <? len (el_text e))) eqn:Hskip.
  - simpl. rewrite Hskip. auto.
  - destruct (drawn_key U cat (el_text e)) as [k |] eqn:Hk; simpl.
    + destruct (claim_element_spec cat.1 k e) as (Hl & Hid & Hagain).
      destruct Hl as (Ht & Hn & Hl).
      rewrite Ht, Hskip, Hk, Hagain.
      split; [repeat split; assumption |]. split; [reflexivity |].
      right. eauto.
    + rewrite Hskip, Hk. auto.
Qed.


Lemma search_all_leaves (cat : catalog) (l : list element) :
  Forall2 search_leaves l (search_all cat l).2.
Proof.
  revert cat. induction l as [| e l IH]; intros cat; simpl; constructor.
  - apply search_element_spec.
  - apply IH.
Qed.

Lemma search_all_targets (cat : catalog) (l : list element) (kt : str * str) :
  In kt (search_all cat l).1.1 →
  In kt cat.1 ∨ ∃ e', In e' (search_all cat l).2 ∧ identifies kt.2 e'.
Proof.
  revert cat. induction l as [| e l IH]; intros cat; simpl; [auto |].
  intros H. destruct (IH _ H) as [Hin | (e' & He' & Hid)].
  - destruct (search_element_spec cat e)
      as (_ & _ & [Heq | (k & target & Heq & Hid)]);
      rewrite Heq in Hin; [auto |].
    simpl in Hin. apply in_app_or in Hin as [Hin | [<- | []]]; [auto |].
    right. exists (search_element cat e).2. simpl. auto.
  - right. exists e'. simpl. auto.
Qed.

(** X6.  The text search leaves the links, the number, the texts and
    the names of the elements as they are, and changes an element at
    most by giving it a made-up id when it has neither an id nor a
    name; every target it records is not empty and is the id or the
    name of an element of the document after the search. *)
Theorem extract_sections_by_text_search_frame (soup : document) :
  doc_anchors (extract_sections_by_text_search U soup).2 = doc_anchors soup
  ∧ Forall2 search_leaves (doc_elements soup)
      (doc_elements (extract_sections_by_text_search U soup).2)
  ∧ ∀ item_key target,
      In (item_key, target) (extract_sections_by_text_search U soup).1 →
      ∃ e',
        In e' (doc_elements (extract_sections_by_text_search U soup).2)
        ∧ identifies target e'.
Proof.
  rewrite extract_sections_by_text_search_all. simpl.
  split; [reflexivity |]. split; [apply search_all_leaves |].
  intros item_key target H.
  apply search_all_targets in H as [[] | H]. exact H.
Qed.


End TextSearchProperties.

(** ** What [main] writes *)

Lemma gate_empty (target_found : list str) :
  should_use_xbrl_fallback ∅ target_found = true.
Proof. reflexivity. Qed.

(** X8.  A result labelled [xbrl_fallback] always holds the sections of
    the pattern extractor; a structural extraction that the gate
    accepts is written as it is under the label [toc_anchor]; and
    nothing is written only when the gate sent the run to the pattern
    extractor and that found nothing. *)
Theorem main_outcomes (toc_targets : list (str * str))
    (structural pattern : gmap str str) :
  (∀ r,
     main toc_targets structural pattern = Some r →
     extraction_method r = lit "xbrl_fallback" →
     sections r = pattern)
  ∧ (toc_targets ≠ [] →
     should_use_xbrl_fallback structural [] = false →
     main toc_targets structural pattern
     = Some {| extraction_method := lit "toc_anchor";
               sections := structural |})
  ∧ (main toc_targets structural pattern = None → pattern = ∅).
Proof.
  unfold main.
  set (extracted := match toc_targets with [] => ∅ | _ => structural end).
  set (tf := List.map fst _).
  split; [| split].
  - intros r H Hlabel.
    destruct (should_use_xbrl_fallback extracted tf) eqn:Hgate.
    + case_bool_decide; [discriminate |]. injection H as <-. reflexivity.
    + case_bool_decide; [discriminate |]. injection H as <-.
      simpl in Hlabel. rewrite Hgate in Hlabel. discriminate.
  - intros Hne Hok.
    assert (Hex : extracted = structural)
      by (subst extracted; destruct toc_targets; [congruence | reflexivity]).
    rewrite Hex.
    assert (Hok' : should_use_xbrl_fallback structural tf = false)
      by exact Hok.
    rewrite Hok'.
    case_bool_decide as Hempty; [| rewrite Hok'; reflexivity].
    rewrite Hempty, gate_empty in Hok. discriminate.
  - destruct (should_use_xbrl_fallback extracted tf) eqn:Hgate.
    + case_bool_decide; [auto | discriminate].
    + case_bool_decide as Hempty; [| discriminate].
      rewrite Hempty, gate_empty in Hgate. discriminate.
Qed.

Lemma main_outcomes_witness :
  main [(lit "item_1", lit "i1")] four_sections ∅
  = Some {| extraction_method := lit "toc_anchor";
            sections := four_sections |}.
Proof.
  apply (proj1 (proj2 (main_outcomes [(lit "item_1", lit "i1")]
                         four_sections ∅))).
  - discriminate.
  - reflexivity.
Defined.

(** ** The boundaries of the pattern fallback *)

Section BoundaryProperties.
Variable re : Regex.
Variable all_text : str.

(** The match looks like a header in its context of 100 characters on
    either side. *)
Definition accepted (m : N * N) : bool :=
  _is_section_header re
    (slice all_text (N.max 0 (m.1 - 100)) (N.min (len all_text) (m.2 + 100)))
    (slice all_text m.1 m.2).

Lemma scan_matches_cons (m : N * N) (matches : list (N * N))
    (start_pos : option N) :
  scan_matches re all_text (m :: matches) start_pos
  = if accepted m then Some m.1
    else scan_matches re all_text matches start_pos.
Proof. destruct m. reflexivity. Qed.

Lemma scan_matches_sound (matches : list (N * N)) (start_pos : option N)
    (p : N) :
  scan_matches re all_text matches start_pos = Some p →
  start_pos = Some p
  ∨ ∃ m_end, In (p, m_end) matches ∧ accepted (p, m_end) = true.
Proof.
  induction matches as [| [s e] matches IH]; [simpl; auto |].
  rewrite scan_matches_cons. destruct (accepted (s, e)) eqn:E.
  - intros [= ->]. right. exists e. split; [left; reflexivity | exact E].
  - intros H. destruct (IH H) as [? | (m_end & Hin & Hacc)]; [auto |].
    right. exists m_end. split; [right; exact Hin | exact Hacc].
Qed.

Lemma scan_patterns_sound (pats : list str) (start_pos : option N) (p : N) :
  scan_patterns re all_text pats start_pos = Some p →
  start_pos = Some p
  ∨ ∃ pattern m_end,
      In pattern pats
      ∧ In (p, m_end) (re_finditer re pattern all_text)
      ∧ accepted (p, m_end) = true.
Proof.
  revert start_pos. induction pats as [| pattern pats IH]; intros start_pos;
    simpl; [auto |].
  set (sp := scan_matches re all_text (re_finditer re pattern all_text)
               start_pos).
  assert (Hsp : ∀ q, sp = Some q →
            start_pos = Some q
            ∨ ∃ pattern' m_end,
                In pattern' (pattern :: pats)
                ∧ In (q, m_end) (re_finditer re pattern' all_text)
                ∧ accepted (q, m_end) = true).
  { intros q Hq. apply scan_matches_sound in Hq as [? | (m_end & ? & ?)];
      [auto |]. right. exists pattern, m_end. simpl. auto. }
  destruct (pos_truthy sp).
  - intros H. apply Hsp, H.
  - intros H. destruct (IH _ H) as [Hq | (pattern' & m_end & ? & ? & ?)].
    + apply Hsp, Hq.
    + right. exists pattern', m_end. simpl. auto.
Qed.

Lemma section_starts_In (mapping : list (str * section_info)) (k : str)
    (p : N) :
  In (k, p) (section_starts re all_text mapping) ↔
  ∃ info,
    In (k, info) mapping
    ∧ scan_patterns re all_text (patterns info) None = Some p ∧ p ≠ 0.
Proof.
  induction mapping as [| [id info] mapping IH]; simpl.
  - split; [tauto | intros (? & [] & _)].
  - destruct (scan_patterns re all_text (patterns info) None) as [q |] eqn:E.
    + simpl. destruct (N.eqb_spec q 0) as [-> | Hq]; simpl.
      * rewrite IH. split.
        -- intros (i & ? & ?). exists i. auto.
        -- intros (i & [[= <- <-] | ?] & Hs & Hp); [congruence |].
           exists i. auto.
      * rewrite IH. split.
        -- intros [[= <- <-] | (i & ? & ?)]; [exists info; auto |].
           exists i. auto.
        -- intros (i & [[= <- <-] | ?] & Hs & Hp).
           ++ left. congruence.
           ++ right. exists i. auto.
    + rewrite IH. split.
      * intros (i & ? & ?). exists i. auto.
      * intros (i & [[= <- <-] | ?] & Hs & Hp); [congruence |].
        exists i. auto.
Qed.

Lemma section_starts_NoDup (mapping : list (str * section_info)) :
  List.NoDup (List.map fst mapping) →
  List.NoDup (List.map fst (section_starts re all_text mapping)).
Proof.
  induction mapping as [| [id info] mapping IH]; simpl; [constructor |].
  intros Hnd. apply NoDup_cons_iff in Hnd as [Hid Hnd].
  assert (Hnot : ¬ In id (List.map fst (section_starts re all_text mapping))).
  { intros H. apply in_map_iff in H as ([k p] & <- & H).
    apply section_starts_In in H as (i & Hi & _).
    apply Hid. apply (in_map fst) in Hi. exact Hi. }
  destruct (scan_patterns re all_text (patterns info) None) as [q |];
    [| exact (IH Hnd)].
  destruct (pos_truthy (Some q)); [| exact (IH Hnd)].
  simpl. constructor; [exact Hnot | exact (IH Hnd)].
Qed.

(** The end that goes with the sections behind [rest]. *)
Definition next_start (rest : list (N * str)) : N :=
  match rest with
  | (next, _) :: _ => next
  | [] => len all_text
  end.

Lemma assign_ends_lookup (section_positions : list (N * str))
    (boundaries : gmap str (N * N)) (k : str) :
  List.NoDup (List.map snd section_positions) →
  assign_ends all_text section_positions boundaries !! k =
  match List.find (λ x, bool_decide (x.2 = k)) section_positions with
  | Some _ =>
      assign_ends all_text section_positions boundaries !! k
  | None => boundaries !! k
  end
  ∧ ∀ s e,
      (∃ before after,
         section_positions = before ++ (s, k) :: after
         ∧ e = next_start after) →
      assign_ends all_text section_positions boundaries !! k = Some (s, e).
Proof.
  revert boundaries.
  induction section_positions as [| [s0 id] rest IH]; intros boundaries Hnd.
  - simpl. split; [reflexivity |].
    intros s e (before & after & H & _). destruct before; discriminate.
  - simpl in Hnd. apply NoDup_cons_iff in Hnd as [Hid Hnd].
    cbn [assign_ends List.find snd]. fold (next_start rest).
    destruct (IH (<[id := (s0, next_start rest)]> boundaries) Hnd)
      as [Hfind Hsome].
    split.
    + case_bool_decide as Hk; [reflexivity |].
      rewrite Hfind.
      destruct (List.find _ rest); [reflexivity |].
      apply lookup_insert_ne. exact Hk.
    + intros s e ([| b before] & after & Heq & ->).
      * injection Heq as -> -> ->.
        rewrite Hfind.
        destruct (List.find (λ x, bool_decide (x.2 = k)) after) as [x |] eqn:E.
        -- exfalso. apply find_some in E as [Hin Hx].
           apply bool_decide_eq_true in Hx. apply Hid.
           rewrite <- Hx. apply (in_map snd) in Hin. exact Hin.
        -- apply lookup_insert_eq.
      * injection Heq as <- ->. apply Hsome. eauto.
Qed.

Lemma assign_ends_Some (section_positions : list (N * str)) (k : str)
    (s e : N) :
  List.NoDup (List.map snd section_positions) →
  assign_ends all_text section_positions ∅ !! k = Some (s, e) ↔
  ∃ before after,
    section_positions = before ++ (s, k) :: after ∧ e = next_start after.
Proof.
  intros Hnd. split.
  - intros H.
    destruct (assign_ends_lookup section_positions ∅ k Hnd) as [Hfind Hsome].
    destruct (List.find (λ x, bool_decide (x.2 = k)) section_positions)
      as [[s' k'] |] eqn:E.
    + apply find_some in E as [Hin Hk].
      apply bool_decide_eq_true in Hk. simpl in Hk. subst k'.
      apply in_split in Hin as (before & after & Heq).
      rewrite (Hsome s' (next_start after)) in H by eauto.
      injection H as <- <-. eauto.
    + rewrite Hfind, lookup_empty in H. discriminate.
  - intros H.
    apply (proj2 (assign_ends_lookup section_positions ∅ k Hnd)). exact H.
Qed.

End BoundaryProperties.

Lemma section_mapping_NoDup : List.NoDup (List.map fst section_mapping).
Proof.
  unfold section_mapping. simpl.
  repeat (constructor;
          [simpl; intros H;
           repeat (destruct H as [H | H]; [discriminate H |]); exact H |]).
  constructor.
Qed.

Lemma sorted_by_app_inv {A} (key : A → N * str) (l1 l2 : list A) (x : A) :
  sorted_by key (l1 ++ x :: l2) →
  (∀ y, In y l1 → tuple_ltb (key x) (key y) = false)
  ∧ sorted_by key (x :: l2).
Proof.
  induction l1 as [| z l1 IH]; simpl; [intros H; split; [intros ? [] | exact H] |].
  intros [Hz Hs]. destruct (IH Hs) as [H1 H2]. split; [| exact H2].
  intros y [<- | Hy]; [| exact (H1 y Hy)].
  apply Hz. apply in_or_app. simpl. auto.
Qed.

Lemma tuple_ltb_false_fst (a b : N * str) :
  tuple_ltb a b = false → b.1 ≤ a.1.
Proof.
  intros H. destruct (N.le_gt_cases b.1 a.1) as [Hle | Hgt]; [exact Hle |].
  assert (tuple_ltb a b = true) by (apply tuple_ltb_spec; left; lia).
  congruence.
Qed.

(** X9.  The pattern fallback records a section exactly when the scan
    of its patterns ends on a start other than 0.  The recorded start
    is never 0 and is the start of a match of one of the section's
    patterns whose context looks like a header; the recorded end is the
    length of the text or the start, not before its own, of another
    recorded section; and no recorded section starts strictly between
    the start and the end of another. *)
Theorem find_section_boundaries_spec (re : Regex) (all_text : str) :
  (∀ k,
     is_Some (find_section_boundaries re all_text !! k) ↔
     ∃ info,
       In (k, info) section_mapping
       ∧ pos_truthy (scan_patterns re all_text (patterns info) None) = true)
  ∧ ∀ k s e,
      find_section_boundaries re all_text !! k = Some (s, e) →
      s ≠ 0
      ∧ (∃ info pattern m_end,
           In (k, info) section_mapping
           ∧ In pattern (patterns info)
           ∧ In (s, m_end) (re_finditer re pattern all_text)
           ∧ accepted re all_text (s, m_end) = true)
      ∧ (e = len all_text
         ∨ (s ≤ e
            ∧ ∃ k' e',
                k' ≠ k
                ∧ find_section_boundaries re all_text !! k' = Some (e, e')))
      ∧ ∀ k' s' e',
          find_section_boundaries re all_text !! k' = Some (s', e') →
          s' ≤ s ∨ e ≤ s'.
Proof.
  unfold find_section_boundaries.
  set (starts := section_starts re all_text section_mapping).
  set (positions := sort_by (λ x, x) (List.map (λ b, (b.2, b.1)) starts)).
  assert (Hperm : Permutation positions (List.map (λ b, (b.2, b.1)) starts))
    by apply sort_by_Permutation.
  assert (Hsorted : sorted_by (λ x, x) positions) by apply sort_by_sorted.
  assert (Hnd : List.NoDup (List.map snd positions)).
  { apply (Permutation_NoDup
             (Permutation_sym (Permutation_map snd Hperm))).
    rewrite List.map_map. simpl.
    apply section_starts_NoDup, section_mapping_NoDup. }
  assert (Hin : ∀ s k, In (s, k) positions ↔ In (k, s) starts).
  { intros s k. split.
    - intros H. apply (Permutation_in _ Hperm) in H.
      apply in_map_iff in H as ([k' s'] & [= <- <-] & H). exact H.
    - intros H. apply (Permutation_in _ (Permutation_sym Hperm)).
      apply in_map_iff. exists (k, s). auto. }
  assert (Hlook : ∀ k s e,
            assign_ends all_text positions ∅ !! k = Some (s, e) ↔
            ∃ before after,
              positions = before ++ (s, k) :: after
              ∧ e = next_start all_text after)
    by (intros; apply assign_ends_Some, Hnd).
  split.
  - intros k. split.
    + intros [[s e] H]. apply Hlook in H as (before & after & Heq & _).
      assert (Hk : In (s, k) positions)
        by (rewrite Heq; apply in_or_app; simpl; auto).
      apply Hin, section_starts_In in Hk as (info & Hi & Hs & Hp).
      exists info. split; [exact Hi |]. rewrite Hs. simpl.
      apply negb_true_iff, N.eqb_neq, Hp.
    + intros (info & Hi & Hp).
      destruct (scan_patterns re all_text (patterns info) None) as [s |] eqn:E;
        [| discriminate].
      simpl in Hp. apply negb_true_iff, N.eqb_neq in Hp.
      assert (Hk : In (s, k) positions).
      { apply Hin, section_starts_In. exists info. auto. }
      apply in_split in Hk as (before & after & Heq).
      exists (s, next_start all_text after). apply Hlook. eauto.
  - intros k s e H. apply Hlook in H as (before & after & Heq & ->).
    assert (Hk : In (s, k) positions)
      by (rewrite Heq; apply in_or_app; simpl; auto).
    apply Hin, section_starts_In in Hk as (info & Hi & Hs & Hp).
    rewrite Heq in Hsorted.
    apply sorted_by_app_inv in Hsorted as [Hbefore [Hafter Hrest]].
    split; [exact Hp |]. split; [| split].
    + apply scan_patterns_sound in Hs
        as [Hs | (pattern & m_end & H1 & H2 & H3)]; [discriminate |].
      exists info, pattern, m_end. auto.
    + destruct after as [| [n k'] after']; [left; reflexivity |].
      right. simpl. split.
      * apply (tuple_ltb_false_fst (n, k') (s, k)).
        apply (Hafter (n, k')). simpl. auto.
      * exists k', (next_start all_text after'). split.
        -- intros ->. rewrite Heq, map_app in Hnd. simpl in Hnd.
           apply NoDup_remove_2 in Hnd. apply Hnd.
           apply in_or_app. right. simpl. auto.
        -- apply Hlook. exists (before ++ [(s, k)]), after'.
           rewrite <- app_assoc. simpl. auto.
    + intros k' s' e' H'. apply Hlook in H' as (b' & a' & Heq' & _).
      assert (Hk' : In (s', k') (before ++ (s, k) :: after)).
      { rewrite <- Heq, Heq'. apply in_or_app. simpl. auto. }
      apply in_app_or in Hk' as [Hk' | [[= <- <-] | Hk']].
      * left. apply (tuple_ltb_false_fst (s, k) (s', k')), Hbefore, Hk'.
      * left. lia.
      * right. destruct after as [| [n kn] after']; [destruct Hk' |].
        simpl. destruct Hk' as [[= <- <-] | Hk']; [lia |].
        destruct Hrest as [Hn _].
        apply (tuple_ltb_false_fst (s', k') (n, kn)), Hn, Hk'.
Qed.

(** ** The extractors of [main] *)

(** [[a-zA-Z]] *)
Definition is_ascii_letter (c : N) : bool := is_ascii_upper c || is_a_z c.

(** [re.sub(r'&[a-zA-Z]+;', ' ', s)].  [pending] holds the "&" and the
    letters read behind it, last first, as long as they may begin a
    character reference; a ";" behind at least one letter puts a space
    in its place, any other code point gives it back as it was. *)
Fixpoint sub_entities (pending : option str) (s : str) : str :=
  match s with
  | [] => match pending with Some buf => rev buf | None => [] end
  | c :: r =>
      match pending with
      | None =>
          if c =? 38 then sub_entities (Some [38]) r
          else c :: sub_entities None r
      | Some buf =>
          if is_ascii_letter c then sub_entities (Some (c :: buf)) r
          else if (c =? 59) && (1 <? len buf) then 32 :: sub_entities None r
          else rev buf
               ++ (if c =? 38 then sub_entities (Some [38]) r
                   else c :: sub_entities None r)
      end
  end.

(** [XBRLSectionParser.clean_text] *)
Definition clean_text (text : str) : str :=
  let text := collapse_whitespace text in
  let text := sub_entities None text in
  strip text.

(** [XBRLSectionParser.extract_section_content]; [full_text] is
    [soup.get_text()].  An end of 0 counts as no end. *)
Definition extract_section_content (full_text : str) (start_pos end_pos : N)
    : str :=
  let section_text :=
    if negb (end_pos =? 0) then slice full_text start_pos end_pos
    else drop (N.to_nat start_pos) full_text in
  clean_text section_text.

(** [XBRLSectionParser.parse_10k_filing_xbrl] *)
Definition parse_10k_filing_xbrl (re : Regex) (all_text : str)
    : gmap str str :=
  let boundaries := find_section_boundaries re all_text in
  fold_left
    (λ (extracted : gmap str str) section_id,
       match boundaries !! section_id with
       | Some (start_pos, end_pos) =>
           let content :=
             extract_section_content all_text start_pos end_pos in
           if truthy content then <[section_id := content]> extracted
           else extracted
       | None => extracted
       end)
    TARGET_SECTIONS ∅.

Section StructuralExtraction.
Variable U : UCD.
Context {node : Type}.
(** The parsed tree of a document, with the ids the text search has
    attached. *)
Variable tree_of : document → Tree node.

(** [extract_div_text_blocks]; the document is returned with the
    sections, as discovery may have marked it. *)
Definition extract_div_text_blocks (soup : document)
    (target_ids : list (str * str)) : gmap str str * document :=
  match target_ids with
  | [] => (∅, soup)
  | _ =>
      let '(all_sections, soup) := extract_all_section_anchors U soup in
      (fold_left
         (λ (extracted : gmap str str) (target : str * str),
            let '(label, div_id) := target in
            if bool_decide (label ∈ TARGET_SECTIONS)
            then
              let next_boundary_id :=
                find_next_available_section all_sections label in
              let full_text :=
                find_section_content_advanced U (tree_of soup) div_id
                  next_boundary_id in
              if truthy full_text then <[label := full_text]> extracted
              else extracted
            else extracted)
         target_ids ∅,
       soup)
  end.

(** [main] from the parsed document on; [all_text] is
    [soup.get_text()]. *)
Definition main_of_document (re : Regex) (soup : document) (all_text : str)
    : option extraction_result :=
  let '(toc_targets, soup) := extract_target_anchors U soup in
  main toc_targets
    (extract_div_text_blocks soup toc_targets).1
    (parse_10k_filing_xbrl re all_text).

End StructuralExtraction.

(** ** What the extractors return *)

(** Neither the first nor the last code point is whitespace. *)
Definition stripped (s : str) : Prop :=
  head_outside isspace s ∧ head_outside isspace (rev s).

Lemma strip_stripped (s : str) : stripped (strip s).
Proof.
  destruct (strip_class_split isspace s) as (a & b & _ & H1 & H2).
  split; assumption.
Qed.

Lemma sub_entities_In (pending : option str) (s : str) (x : N) :
  In x (sub_entities pending s) →
  x = 32 ∨ In x s ∨ match pending with Some buf => In x buf | None => False end.
Proof.
  revert pending. induction s as [| c s IH]; intros pending; simpl.
  - destruct pending as [buf |]; [| tauto].
    intros H. apply in_rev in H. auto.
  - destruct pending as [buf |].
    + destruct (is_ascii_letter c).
      * intros H. destruct (IH _ H) as [? | [? | [<- | ?]]]; auto.
      * destruct ((c =? 59) && (1 <? len buf)).
        -- intros [<- | H]; [auto |].
           destruct (IH _ H) as [? | [? | []]]; auto.
        -- intros H. apply in_app_or in H as [H | H];
             [apply in_rev in H; auto |].
           destruct (N.eqb_spec c 38) as [-> | _].
           ++ destruct (IH _ H) as [? | [? | [<- | []]]]; auto.
           ++ destruct H as [<- | H]; [auto |].
              destruct (IH _ H) as [? | [? | []]]; auto.
    + destruct (N.eqb_spec c 38) as [-> | _].
      * intros H. destruct (IH _ H) as [? | [? | [<- | []]]]; auto.
      * intros [<- | H]; [auto |].
        destruct (IH _ H) as [? | [? | []]]; auto.
Qed.

(** X10.  Cleaned text neither begins nor ends with whitespace and
    holds no whitespace but the space; the empty text stays empty. *)
Theorem clean_text_shape (text : str) :
  stripped (clean_text text)
  ∧ (∀ x, In x (clean_text text) → isspace x = true → x = 32)
  ∧ clean_text [] = [].
Proof.
  split; [apply strip_stripped |]. split; [| reflexivity].
  intros x Hx Hsp. unfold clean_text, strip in Hx.
  apply strip_class_In, sub_entities_In in Hx as [-> | [Hx | []]];
    [reflexivity |].
  apply collapse_from_In in Hx as [-> | [_ Hns]]; [reflexivity |].
  congruence.
Qed.

(** The step of a loop that puts [f x] under the key [x] when there is
    one. *)
Definition put_if (f : str → option str) (extracted : gmap str str)
    (x : str) : gmap str str :=
  match f x with
  | Some content => <[x := content]> extracted
  | None => extracted
  end.

Lemma fold_put_if (f : str → option str) (l : list str)
    (extracted : gmap str str) (k : str) :
  fold_left (put_if f) l extracted !! k =
  if bool_decide (k ∈ l)
  then match f k with Some c => Some c | None => extracted !! k end
  else extracted !! k.
Proof.
  revert extracted. induction l as [| x l IH]; intros extracted;
    cbn [fold_left].
  - case_bool_decide as H; [| reflexivity].
    apply elem_of_nil in H. destruct H.
  - rewrite IH.
    destruct (decide (x = k)) as [-> | Hne].
    + rewrite (bool_decide_eq_true_2 (k ∈ k :: l)) by (apply elem_of_cons; auto).
      unfold put_if. destruct (f k) as [c |] eqn:E.
      * rewrite lookup_insert_eq. destruct (bool_decide (k ∈ l)); reflexivity.
      * destruct (bool_decide (k ∈ l)); reflexivity.
    + assert (Hother : put_if f extracted x !! k = extracted !! k).
      { unfold put_if. destruct (f x); [| reflexivity].
        apply lookup_insert_ne, Hne. }
      rewrite Hother.
      destruct (bool_decide (k ∈ l)) eqn:Hin.
      * apply bool_decide_eq_true in Hin.
        rewrite (bool_decide_eq_true_2 (k ∈ x :: l))
          by (apply elem_of_cons; auto).
        reflexivity.
      * apply bool_decide_eq_false in Hin.
        rewrite (bool_decide_eq_false_2 (k ∈ x :: l)); [reflexivity |].
        intros H. apply elem_of_cons in H as [-> | H]; [congruence | auto].
Qed.

Lemma fold_left_pointwise {A B} (f g : A → B → A) (l : list B) (a : A) :
  (∀ a b, f a b = g a b) → fold_left f l a = fold_left g l a.
Proof.
  intros H. revert a. induction l as [| b l IH]; intros a; simpl;
    [reflexivity |].
  rewrite H. apply IH.
Qed.

(** The content the pattern fallback has for a section, if any. *)
Definition pattern_content (re : Regex) (all_text : str) (section_id : str)
    : option str :=
  match find_section_boundaries re all_text !! section_id with
  | Some (start_pos, end_pos) =>
      let content := extract_section_content all_text start_pos end_pos in
      if truthy content then Some content else None
  | None => None
  end.

Lemma parse_10k_filing_xbrl_fold (re : Regex) (all_text : str) :
  parse_10k_filing_xbrl re all_text
  = fold_left (put_if (pattern_content re all_text)) TARGET_SECTIONS ∅.
Proof.
  unfold parse_10k_filing_xbrl. apply fold_left_pointwise.
  intros extracted section_id. unfold put_if, pattern_content.
  destruct (find_section_boundaries re all_text !! section_id)
    as [[s e] |]; [| reflexivity].
  destruct (truthy _); reflexivity.
Qed.

(** X11.  The pattern extractor returns, for each target key that has
    boundaries and whose cleaned slice of the text is not empty, that
    cleaned slice, and nothing else: no other key, and no empty
    text. *)
Theorem parse_10k_filing_xbrl_spec (re : Regex) (all_text : str)
    (k content : str) :
  parse_10k_filing_xbrl re all_text !! k = Some content ↔
  In k TARGET_SECTIONS
  ∧ truthy content = true
  ∧ ∃ start_pos end_pos,
      find_section_boundaries re all_text !! k = Some (start_pos, end_pos)
      ∧ content = extract_section_content all_text start_pos end_pos.
Proof.
  rewrite parse_10k_filing_xbrl_fold, fold_put_if, lookup_empty.
  unfold pattern_content. split.
  - case_bool_decide as Hin; [| discriminate].
    apply list_elem_of_In in Hin.
    destruct (find_section_boundaries re all_text !! k) as [[s e] |];
      [| discriminate].
    destruct (truthy (extract_section_content all_text s e)) eqn:Ht;
      [| discriminate].
    intros [= <-]. eauto 6.
  - intros (Hin & Ht & s & e & -> & ->).
    rewrite bool_decide_eq_true_2 by (apply list_elem_of_In, Hin).
    rewrite Ht. reflexivity.
Qed.

(** ** The structural extractor and the whole run *)

Lemma find_section_content_advanced_stripped (U : UCD) {node : Type}
    (soup : Tree node) (target_id : str) (next_target_id : option str) :
  stripped (find_section_content_advanced U soup target_id next_target_id).
Proof.
  unfold find_section_content_advanced.
  destruct (find_target U soup target_id) as [target_el |];
    [| split; exact I].
  destruct (startswith target_id (lit "section_")); apply strip_stripped.
Qed.

Section StructuralProperties.
Variable U : UCD.
Context {node : Type}.
Variable tree_of : document → Tree node.

(** The text the structural extractor reads for a target: the content
    from its element up to the element of the next section of the
    catalog. *)
Definition structural_content (soup : document) (label div_id : str) : str :=
  let '(all_sections, soup) := extract_all_section_anchors U soup in
  find_section_content_advanced U (tree_of soup) div_id
    (find_next_available_section all_sections label).

Definition structural_step (soup : document) (extracted : gmap str str)
    (target : str * str) : gmap str str :=
  if bool_decide (target.1 ∈ TARGET_SECTIONS)
  then
    if truthy (structural_content soup target.1 target.2)
    then <[target.1 := structural_content soup target.1 target.2]> extracted
    else extracted
  else extracted.

Lemma extract_div_text_blocks_fold (soup : document)
    (target_ids : list (str * str)) :
  (extract_div_text_blocks U tree_of soup target_ids).1
  = fold_left (structural_step soup) target_ids ∅.
Proof.
  unfold extract_div_text_blocks, structural_step, structural_content.
  destruct target_ids as [| t l]; [reflexivity |].
  destruct (extract_all_section_anchors U soup) as [all_sections soup'].
  cbn [fst]. apply fold_left_pointwise.
  intros extracted [label div_id]. reflexivity.
Qed.

(** What holds of a section the structural extractor has put. *)
Definition structural_entry (soup : document) (target_ids : list (str * str))
    (label text : str) : Prop :=
  In label TARGET_SECTIONS
  ∧ truthy text = true
  ∧ stripped text
  ∧ ∃ div_id,
      In (label, div_id) target_ids
      ∧ text = structural_content soup label div_id.

Lemma structural_content_stripped (soup : document) (label div_id : str) :
  stripped (structural_content soup label div_id).
Proof.
  unfold structural_content.
  destruct (extract_all_section_anchors U soup) as [all_sections soup'].
  apply find_section_content_advanced_stripped.
Qed.

Lemma structural_fold_sound (soup : document) (target_ids l : list (str * str))
    (extracted : gmap str str) :
  (∀ t, In t l → In t target_ids) →
  (∀ label text,
     extracted !! label = Some text →
     structural_entry soup target_ids label text) →
  ∀ label text,
    fold_left (structural_step soup) l extracted !! label = Some text →
    structural_entry soup target_ids label text.
Proof.
  revert extracted. induction l as [| [k d] l IH]; intros extracted Hl Hm;
    cbn [fold_left]; [exact Hm |].
  apply IH; [intros t Ht; apply Hl; right; exact Ht |].
  unfold structural_step. cbn [fst snd].
  case_bool_decide as Hk; [| exact Hm].
  destruct (truthy (structural_content soup k d)) eqn:Ht; [| exact Hm].
  intros label text Hlook.
  destruct (decide (k = label)) as [<- | Hne].
  - rewrite lookup_insert_eq in Hlook. injection Hlook as <-.
    split; [apply list_elem_of_In, Hk |].
    split; [exact Ht |].
    split; [apply structural_content_stripped |].
    exists d. split; [apply Hl; left; reflexivity | reflexivity].
  - rewrite lookup_insert_ne in Hlook by exact Hne. apply Hm, Hlook.
Qed.



Lemma extract_div_text_blocks_sound (soup : document)
    (target_ids : list (str * str)) (label text : str) :
  (extract_div_text_blocks U tree_of soup target_ids).1 !! label = Some text →
  structural_entry soup target_ids label text.
Proof.
  rewrite extract_div_text_blocks_fold.
  apply structural_fold_sound; [auto |].
  intros k v H. rewrite lookup_empty in H. discriminate.
Qed.


Lemma parse_10k_filing_xbrl_sound (re : Regex) (all_text : str)
    (k content : str) :
  parse_10k_filing_xbrl re all_text !! k = Some content →
  In k TARGET_SECTIONS ∧ truthy content = true ∧ stripped content.
Proof.
  rewrite parse_10k_filing_xbrl_fold, fold_put_if, lookup_empty.
  unfold pattern_content.
  case_bool_decide as Hin; [| discriminate].
  apply list_elem_of_In in Hin.
  destruct (find_section_boundaries re all_text !! k) as [[s e] |];
    [| discriminate].
  destruct (truthy (extract_section_content all_text s e)) eqn:Ht;
    [| discriminate].
  intros [= <-]. split; [exact Hin |]. split; [exact Ht |].
  apply strip_stripped.
Qed.

Lemma main_sections (toc_targets : list (str * str))
    (structural pattern : gmap str str) (r : extraction_result) :
  main toc_targets structural pattern = Some r →
  sections r ≠ ∅
  ∧ (sections r = structural ∨ sections r = pattern).
Proof.
  unfold main.
  set (extracted := match toc_targets with [] => ∅ | _ => structural end).
  set (tf := List.map fst _).
  assert (Hex : extracted = ∅ ∨ extracted = structural)
    by (subst extracted; destruct toc_targets; auto).
  destruct (should_use_xbrl_fallback extracted tf).
  - case_bool_decide as Hempty; [discriminate |].
    intros [= <-]. simpl. auto.
  - case_bool_decide as Hempty; [discriminate |].
    intros [= <-]. simpl. split; [exact Hempty |].
    destruct Hex as [Hex | Hex]; [congruence | auto].
Qed.

(** X13.  Whatever a run writes is not empty; each of its sections has a
    target key and a text that is not empty and has no whitespace at
    either end; and a result labelled [toc_anchor] holds at least four
    of the six target sections, none longer than 30000 words. *)
Theorem main_of_document_spec (re : Regex) (soup : document) (all_text : str)
    (r : extraction_result) :
  main_of_document U tree_of re soup all_text = Some r →
  sections r ≠ ∅
  ∧ (∀ k v,
       sections r !! k = Some v →
       In k TARGET_SECTIONS ∧ truthy v = true ∧ stripped v)
  ∧ (extraction_method r = lit "toc_anchor" →
     4 ≤ found_count (sections r)
     ∧ ∀ k v, sections r !! k = Some v → word_count v ≤ 30000).
Proof.
  unfold main_of_document.
  destruct (extract_target_anchors U soup) as [toc_targets soup'].
  intros H.
  destruct (main_sections _ _ _ _ H) as [Hne Hwhich].
  split; [exact Hne |]. split.
  - intros k v Hlook. destruct Hwhich as [Heq | Heq]; rewrite Heq in Hlook.
    + destruct (extract_div_text_blocks_sound _ _ _ _ Hlook)
        as (Hk & Ht & Hs & _).
      auto.
    + apply (parse_10k_filing_xbrl_sound re all_text), Hlook.
  - intros Hlabel.
    rewrite (main_label_is_gate_of_result _ _ _ _ H) in Hlabel.
    destruct (should_use_xbrl_fallback (sections r) []) eqn:Hgate;
      [discriminate |].
    rewrite gate_unfold in Hgate.
    apply orb_false_iff in Hgate as [Hgate Hlong].
    apply orb_false_iff in Hgate as [_ Hcount].
    apply N.leb_gt in Hcount. split; [lia |].
    intros k v Hlook.
    destruct (N.le_gt_cases (word_count v) 30000) as [Hle | Hgt];
      [exact Hle |].
    assert (Hsome :
      existsb (λ item, too_long item.2) (map_to_list (sections r)) = true)
      by (apply some_section_too_long; eauto).
    congruence.
Qed.

End StructuralProperties.

(** ** Character references in cleaned text *)

(** [&[a-zA-Z]+;] matches at the start of [s]: the letters behind the
    "&" are taken as far as they go, and a ";" has to follow them. *)
Definition entity_at (s : str) : bool :=
  match s with
  | c :: r =>
      (c =? 38)
      && (let '(letters, rest) := span is_ascii_letter r in
          truthy letters
          && match rest with d :: _ => d =? 59 | [] => false end)
  | [] => false
  end.

(** [re.search(r'&[a-zA-Z]+;', s)] finds a match. *)
Fixpoint has_entity (s : str) : bool :=
  match s with
  | [] => false
  | _ :: r => entity_at s || has_entity r
  end.

Lemma sub_entities_pending (buf s : str) :
  sub_entities (Some buf) s =
  let '(letters, rest) := span is_ascii_letter s in
  if match rest with d :: _ => d =? 59 | [] => false end
     && (1 <? len buf + len letters)
  then 32 :: sub_entities None (tail rest)
  else rev buf ++ letters ++ sub_entities None rest.
Proof.
  revert buf. induction s as [| c r IH]; intros buf.
  - simpl. rewrite app_nil_r. reflexivity.
  - cbn [sub_entities span]. destruct (is_ascii_letter c) eqn:Hc.
    + rewrite IH. destruct (span is_ascii_letter r) as [letters rest].
      assert (Hlen : len (c :: buf) + len letters
                     = len buf + len (c :: letters))
        by (unfold len; simpl length; lia).
      rewrite Hlen.
      destruct (_ && _); [reflexivity |].
      simpl rev. rewrite <- app_assoc. reflexivity.
    + assert (Hlen : len buf + len (@nil N) = len buf)
        by (unfold len; simpl; lia).
      rewrite Hlen. cbn [tail].
      destruct ((c =? 59) && (1 <? len buf)); reflexivity.
Qed.

Lemma sub_entities_head (s : str) (x : N) :
  head (sub_entities None s) = Some x → x = 32 ∨ head s = Some x.
Proof.
  destruct s as [| c r]; [discriminate |]. cbn [sub_entities].
  destruct (N.eqb_spec c 38) as [-> | _]; [| simpl; auto].
  rewrite sub_entities_pending.
  destruct (span is_ascii_letter r) as [letters rest].
  destruct (_ && _); simpl; intros [= <-]; auto.
Qed.

Lemma letter_not_ampersand (c : N) : is_ascii_letter c = true → (c =? 38) = false.
Proof.
  unfold is_ascii_letter, is_ascii_upper, is_a_z. intros H.
  apply N.eqb_neq. intros ->. discriminate.
Qed.

Lemma letter_not_semicolon (c : N) : is_ascii_letter c = true → (c =? 59) = false.
Proof.
  unfold is_ascii_letter, is_ascii_upper, is_a_z. intros H.
  apply N.eqb_neq. intros ->. discriminate.
Qed.

Lemma has_entity_letters (letters s : str) :
  forallb is_ascii_letter letters = true →
  has_entity (letters ++ s) = has_entity s.
Proof.
  induction letters as [| c l IH]; [reflexivity |].
  simpl. intros H. apply andb_true_iff in H as [Hc Hl].
  rewrite (letter_not_ampersand c Hc). simpl. exact (IH Hl).
Qed.

Lemma sub_entities_no_entity (n : nat) (s : str) :
  (length s ≤ n)%nat → has_entity (sub_entities None s) = false.
Proof.
  revert s. induction n as [| n IH]; intros [| c r] Hn;
    try reflexivity; simpl in Hn; [lia |].
  cbn [sub_entities]. destruct (N.eqb_spec c 38) as [-> | Hc].
  - rewrite sub_entities_pending.
    destruct (span is_ascii_letter r) as [letters rest] eqn:Hspan.
    apply span_split in Hspan as (Hr & Hletters & Hrest).
    assert (Hlen : (length rest ≤ n)%nat).
    { rewrite Hr, length_app in Hn. lia. }
    destruct (_ && _) eqn:Hentity.
    + cbn [has_entity entity_at]. simpl "=?". cbn [andb orb].
      apply IH. destruct rest; simpl in *; lia.
    + set (o := sub_entities None rest).
      assert (Ho : has_entity o = false) by (apply IH, Hlen).
      assert (Hhead : match o with
                      | d :: _ => is_ascii_letter d = false
                                  ∧ (truthy letters = true → (d =? 59) = false)
                      | [] => True
                      end).
      { destruct o as [| d o'] eqn:Eo; [exact I |].
        destruct (sub_entities_head rest d) as [-> | Hd].
        - subst o. rewrite Eo. reflexivity.
        - split; reflexivity.
        - destruct rest as [| d' rest']; [discriminate |].
          injection Hd as ->. split; [exact Hrest |].
          intros Ht. apply andb_false_iff in Hentity as [H | H];
            [exact H |].
          apply N.ltb_ge in H. destruct letters; [discriminate |].
          unfold len in H. simpl in H. lia. }
      simpl rev. cbn [app has_entity].
      rewrite has_entity_letters, Ho, orb_false_r by exact Hletters.
      cbn [entity_at]. simpl "=?". cbn [andb].
      rewrite span_app;
        [| exact Hletters | destruct o; [exact I | apply Hhead]].
      destruct letters as [| l ls]; [reflexivity |]. cbn [truthy andb].
      destruct o as [| d o']; [reflexivity |]. apply Hhead. reflexivity.
  - cbn [has_entity entity_at].
    apply N.eqb_neq in Hc. rewrite Hc. cbn [andb orb].
    apply IH. lia.
Qed.

Lemma entity_at_app (s t : str) :
  entity_at s = true → entity_at (s ++ t) = true.
Proof.
  destruct s as [| c r]; [discriminate |]. cbn [entity_at app].
  intros H. apply andb_true_iff in H as [Hc H]. rewrite Hc. cbn [andb].
  destruct (span is_ascii_letter r) as [letters rest] eqn:Hspan.
  apply span_split in Hspan as (-> & Hletters & Hrest).
  apply andb_true_iff in H as [Ht Hd].
  destruct rest as [| d rest']; [discriminate |].
  rewrite <- app_assoc. cbn [app].
  rewrite span_app by assumption. rewrite Ht, Hd. reflexivity.
Qed.

Lemma has_entity_app (a m b : str) :
  has_entity (a ++ m ++ b) = false → has_entity m = false.
Proof.
  induction a as [| c a IH].
  - cbn [app]. induction m as [| c m IHm]; [reflexivity |].
    cbn [app has_entity]. intros H. apply orb_false_iff in H as [H1 H2].
    apply orb_false_iff. split; [| exact (IHm H2)].
    destruct (entity_at (c :: m)) eqn:E; [| reflexivity].
    apply (entity_at_app _ b) in E. cbn [app] in E. congruence.
  - cbn [app has_entity]. intros H. apply orb_false_iff in H as [_ H].
    exact (IH H).
Qed.

(** X16.  Cleaned text holds no named character reference: nowhere in
    it is there an "&" with ASCII letters and a ";" behind it.  Each
    reference of the text has become a space, and none arises from what
    is left around one. *)
Theorem clean_text_no_entity (text : str) :
  has_entity (clean_text text) = false
  ∧ ∀ s, has_entity (sub_entities None s) = false.
Proof.
  assert (H : ∀ s, has_entity (sub_entities None s) = false)
    by (intros s; apply (sub_entities_no_entity (length s)); lia).
  split; [| exact H].
  unfold clean_text, strip.
  destruct (strip_class_split isspace
              (sub_entities None (collapse_whitespace text)))
    as (a & b & Heq & _).
  apply (has_entity_app a _ b). rewrite <- Heq. apply H.
Qed.

(** ** The catalog order and the boundaries *)

Lemma filter_insert_by {A} (key : A → N * str) (p : A → bool) (x : A)
    (l : list A) :
  sorted_by key l →
  List.filter p (insert_by key x l)
  = if p x then insert_by key x (List.filter p l) else List.filter p l.
Proof.
  induction l as [| y l IH]; [intros _; simpl; destruct (p x); reflexivity |].
  intros [Hy Hl]. cbn [insert_by].
  destruct (tuple_ltb (key y) (key x)) eqn:E.
  - cbn [List.filter]. rewrite (IH Hl).
    destruct (p x), (p y); try reflexivity.
    cbn [insert_by]. rewrite E. reflexivity.
  - cbn [List.filter]. destruct (p x) eqn:Hpx; [| reflexivity].
    destruct (p y) eqn:Hpy.
    + cbn [insert_by]. rewrite E. reflexivity.
    + assert (Hhead : ∀ z, In z (List.filter p l) →
                           tuple_ltb (key z) (key x) = false).
      { intros z Hz. apply filter_In in Hz as [Hz _].
        apply not_true_is_false. intros Hzx.
        destruct (tuple_ltb_total (key y) (key z)) as [H | [H | H]].
        - pose proof (tuple_ltb_trans _ _ _ H Hzx). congruence.
        - rewrite <- H in Hzx. congruence.
        - rewrite (Hy z Hz) in H. discriminate. }
      destruct (List.filter p l) as [| z r]; [reflexivity |].
      cbn [insert_by]. rewrite Hhead by (left; reflexivity). reflexivity.
Qed.

Lemma filter_sort_by {A} (key : A → N * str) (p : A → bool) (l : list A) :
  List.filter p (sort_by key l) = sort_by key (List.filter p l).
Proof.
  induction l as [| x l IH]; [reflexivity |].
  change (sort_by key (x :: l)) with (insert_by key x (sort_by key l)).
  rewrite filter_insert_by by apply sort_by_sorted.
  cbn [List.filter]. destruct (p x); [| exact IH].
  change (sort_by key (x :: List.filter p l))
    with (insert_by key x (sort_by key (List.filter p l))).
  rewrite IH. reflexivity.
Qed.

Lemma first_min_sort_by {A} (key : A → N * str) (l : list A) :
  first_min key (sort_by key l) = first_min key l.
Proof.
  rewrite sorted_by_first_min by apply sort_by_sorted. apply head_sort_by.
Qed.

Lemma find_next_available_section_sort_by (all_sections : list (str * str))
    (current_section : str) :
  find_next_available_section
    (sort_by (λ x, get_item_sort_key x.1) all_sections) current_section
  = find_next_available_section all_sections current_section.
Proof.
  rewrite !find_next_available_section_first_min.
  rewrite filter_sort_by.
  rewrite (first_min_sort_by (λ s : str * str, get_item_sort_key s.1)).
  reflexivity.
Qed.

(** X14.  The boundary of a section does not depend on the catalog
    being sorted: the resolver answers on a list of anchors as on its
    sorted copy, hence on the catalog of [extract_all_section_anchors]
    as on the anchors of [extract_target_anchors]. *)
Theorem find_next_available_section_unsorted (U : UCD) (soup : document)
    (current_section : str) :
  (∀ all_sections,
     find_next_available_section
       (sort_by (λ x, get_item_sort_key x.1) all_sections) current_section
     = find_next_available_section all_sections current_section)
  ∧ find_next_available_section (extract_all_section_anchors U soup).1
      current_section
    = find_next_available_section (extract_target_anchors U soup).1
        current_section.
Proof.
  split.
  - intros all_sections. apply find_next_available_section_sort_by.
  - rewrite extract_all_is_sorted_targets. cbn [fst].
    apply find_next_available_section_sort_by.
Qed.



Section RunProperties.
Variable U : UCD.
Context {node : Type}.
Variable tree_of : document → Tree node.


End RunProperties.

(** A document without links and elements, whose flattened text is
    [header_first]: the pattern extractor alone finds a section. *)
Definition text_only : document := {| doc_anchors := []; doc_elements := [] |}.

Definition text_only_tree : Tree nat := {|
  soup_find attr value := None;
  soup_find_all attr := [];
  soup_find_a attr value := None;
  soup_find_all_a attr := [];
  node_get el attr := None;
  node_name el := [];
  node_text el := [];
  node_text_joined el := [];
  node_parent el := None;
  next_siblings el := [];
  node_eqb := Nat.eqb
|}.

Definition text_only_result : extraction_result :=
  {| extraction_method := lit "xbrl_fallback";
     sections := {[ lit "item_1" := lit "business" ]} |}.

Lemma main_of_document_spec_witness :
  sections text_only_result ≠ ∅
  ∧ (∀ k v,
       sections text_only_result !! k = Some v →
       In k TARGET_SECTIONS ∧ truthy v = true ∧ stripped v)
  ∧ (extraction_method text_only_result = lit "toc_anchor" →
     4 ≤ found_count (sections text_only_result)
     ∧ ∀ k v,
         sections text_only_result !! k = Some v → word_count v ≤ 30000).
Proof.
  apply (main_of_document_spec ucd_fragment (λ _, text_only_tree)
           scripted_regex text_only header_first).
  vm_compute. reflexivity.
Defined.


